(** * Foodiary kernel: the dependency-injection registry and the schema
    annotation store.

    A shallow embedding of [kernel/di/Registry.ts],
    [kernel/decorators/Schema.ts] and [kernel/decorators/Injectable.ts],
    followed by the properties of registration, resolution and schema
    lookup. *)

From Stdlib Require Import Ascii String.
From stdpp Require Import gmap strings list relations pretty.

Open Scope string_scope.
Open Scope list_scope.

(** ** Values of the program *)

(** A class (what TypeScript calls a [Constructor]).  A class is a JavaScript
    object: [ref] is its object identity, [name] its [name] property and
    [proto] the class it extends, if any ([Object.getPrototypeOf] of a
    derived class is its base class).  Two classes are the same object
    exactly when their [ref]s agree. *)
#[warnings="-register-all"]
Inductive Constructor : Type :=
  Class (ref : nat) (name : string) (proto : option Constructor).

Definition ref (c : Constructor) : nat :=
  match c with Class r _ _ => r end.

Definition name (c : Constructor) : string :=
  match c with Class _ n _ => n end.

Definition proto (c : Constructor) : option Constructor :=
  match c with Class _ _ p => p end.

(** A zod schema is an object the kernel stores and hands back without ever
    looking inside; it is known by its identity. *)
Inductive ZodSchema : Type := Zod (schema_id : nat).

(** [namespace Registry]: [Provider = { impl: Constructor; deps: Constructor[] }]. *)
Module Registry.
Record Provider : Type := mkProvider {
  impl : Constructor;
  deps : list Constructor;
}.
End Registry.

(** Objects live in a heap and are known by their location.  An object made
    by [new C(...args)] records the class it was made from and the argument
    references it was given, in order. *)
Definition loc := nat.

Record Obj : Type := mkObj {
  constructor : Constructor;
  args : list loc;
}.

(** [throw new Error(message)]. *)
Inductive JsError : Type := Error (message : string).

(** ** The state of the process *)

(** - [providers] is the [Map<string, Registry.Provider>] of the one
      [Registry] there can be (its constructor is private, so the only
      instance is the one [getInstance] hands out);
    - [heap] holds the objects created with [new], in creation order: the
      object at index [l] is the [l]-th one constructed;
    - [paramtypes] and [schemas] are the two keys of the reflect-metadata
      store this program uses, ['design:paramtypes'] and ['custom:schema'],
      each a table from the target object (a class, by identity) to the
      value defined on it. *)
Record World : Type := mkWorld {
  providers : gmap string Registry.Provider;
  heap : list Obj;
  paramtypes : gmap nat (list Constructor);
  schemas : gmap nat ZodSchema;
}.

Definition set_providers (t : gmap string Registry.Provider) (w : World) : World :=
  mkWorld t (heap w) (paramtypes w) (schemas w).

Definition set_heap (h : list Obj) (w : World) : World :=
  mkWorld (providers w) h (paramtypes w) (schemas w).

Definition set_schemas (s : gmap nat ZodSchema) (w : World) : World :=
  mkWorld (providers w) (heap w) (paramtypes w) s.

Definition set_paramtypes (p : gmap nat (list Constructor)) (w : World) : World :=
  mkWorld (providers w) (heap w) p (schemas w).

(** The process at start-up: nothing registered, nothing allocated, no
    metadata defined. *)
Definition initial : World := mkWorld ∅ [] ∅ ∅.

(** ** Computations

    A call either returns a value, throws, or needs a deeper call stack than
    the bound it runs with ([OutOfFuel]).  A computation that is [OutOfFuel]
    at every bound is one whose recursion never ends.  The state is threaded
    through every outcome: what was done before a [throw] stays done. *)
Inductive Outcome (A : Type) : Type :=
| Return (a : A)
| Throw (e : JsError)
| OutOfFuel.

Arguments Return {A} a.
Arguments Throw {A} e.
Arguments OutOfFuel {A}.

Definition M (A : Type) : Type := World -> Outcome A * World.

Definition ret {A} (a : A) : M A := fun w => (Return a, w).

Definition throw {A} (e : JsError) : M A := fun w => (Throw e, w).

Definition bind {A B} (m : M A) (k : A -> M B) : M B :=
  fun w =>
    match m w with
    | (Return a, w') => k a w'
    | (Throw e, w') => (Throw e, w')
    | (OutOfFuel, w') => (OutOfFuel, w')
    end.

Definition gets {A} (f : World -> A) : M A := fun w => (Return (f w), w).

Definition modify (f : World -> World) : M unit := fun w => (Return tt, f w).

Notation "x <~ m ;; k" := (bind m (fun x => k))
  (at level 100, m at next level, right associativity).

(** [xs.map(f)] for a callback with effects: the elements are visited from
    left to right, and a [throw] in the callback ends the loop. *)
Fixpoint mapM {A B} (f : A -> M B) (xs : list A) : M (list B) :=
  match xs with
  | [] => ret []
  | x :: xs' =>
      y <~ f x ;;
      ys <~ mapM f xs' ;;
      ret (y :: ys)
  end.

(** [new C(...args)]: a fresh object, placed after every object made so
    far.  The classes this registry builds have constructors that only store
    their parameters, so construction itself neither throws nor touches
    the registry. *)
Definition new (C : Constructor) (args : list loc) : M loc :=
  fun w => (Return (length (heap w)), set_heap (heap w ++ [mkObj C args]) w).

(** ** reflect-metadata *)

(** [Reflect.getMetadata(key, O)] looks on [O] itself and then up its
    prototype chain: the first object of the chain that has the key
    decides. *)
Fixpoint OrdinaryGetMetadata {V} (store : gmap nat V) (O : Constructor) : option V :=
  match O with
  | Class r _ parent =>
      match store !! r with
      | Some v => Some v
      | None =>
          match parent with
          | Some P => OrdinaryGetMetadata store P
          | None => None
          end
      end
  end.

(** [Reflect.defineMetadata(key, value, O)] writes on [O] itself. *)
Definition OrdinaryDefineOwnMetadata {V} (value : V) (O : Constructor)
    (store : gmap nat V) : gmap nat V :=
  <[ref O := value]> store.

(** ** kernel/di/Registry.ts *)

Definition dquote : string := String "034"%char EmptyString.

(** The template literal [`"${token}"`]. *)
Definition quoted (token : string) : string := dquote +:+ token +:+ dquote.

(** [register(impl)]. *)
Definition register (impl : Constructor) : M unit :=
  let token := name impl in
  has <~ gets (fun w => bool_decide (is_Some (providers w !! token))) ;;
  if (has : bool) then
    throw (Error (quoted token +:+ " is already registered in the registry."))
  else
    md <~ gets (fun w => OrdinaryGetMetadata (paramtypes w) impl) ;;
    let deps := default [] md in
    modify (fun w => set_providers (<[token := Registry.mkProvider impl deps]> (providers w)) w).

(** [resolve(impl)].  The recursion of the source has no bound of its own;
    [fuel] is the depth of call stack the call may use. *)
Fixpoint resolve (fuel : nat) (impl : Constructor) : M loc :=
  match fuel with
  | O => fun w => (OutOfFuel, w)
  | S fuel' =>
      let token := name impl in
      provider <~ gets (fun w => providers w !! token) ;;
      match provider with
      | None => throw (Error (quoted token +:+ " is not registered."))
      | Some provider =>
          deps <~ mapM (resolve fuel') (Registry.deps provider) ;;
          instance <~ new (Registry.impl provider) deps ;;
          ret instance
      end
  end.

(** ** kernel/decorators/Injectable.ts *)

(** [Injectable()(target)]: [Registry.getInstance().register(target)], where
    [Registry.getInstance()] is the one registry, whose table is
    [providers]. *)
Definition Injectable (target : Constructor) : M unit := register target.

(** ** kernel/decorators/Schema.ts *)

(** [Schema(schema)(target)]. *)
Definition Schema (schema : ZodSchema) (target : Constructor) : M unit :=
  modify (fun w => set_schemas (OrdinaryDefineOwnMetadata schema target (schemas w)) w).

(** [getSchema(target)]: [target] is an instance; [target.constructor] is its
    class. *)
Definition getSchema (target : Obj) : M (option ZodSchema) :=
  gets (fun w => OrdinaryGetMetadata (schemas w) (constructor target)).

(** ** The vocabulary of the specification *)

(** The two failures of the registry.  The source throws a plain [Error];
    the kind of failure and the identity it names are in the message. *)
Definition DuplicateRegistration (token : string) : JsError :=
  Error (quoted token +:+ " is already registered in the registry.").

Definition UnregisteredType (token : string) : JsError :=
  Error (quoted token +:+ " is not registered.").

Abbreviation table := (gmap string Registry.Provider).

(** [b] is a declared dependency of [a]: the table has an entry for [a]
    that lists a class named [b]. *)
Definition dep_edge (t : table) (a b : string) : Prop :=
  exists p d, t !! a = Some p /\ d ∈ Registry.deps p /\ name d = b.

(** The transitive dependency graph of [a] is what [rtc (dep_edge t) a]
    reaches. *)
Definition fully_registered (t : table) (a : string) : Prop :=
  forall b, rtc (dep_edge t) a b -> is_Some (t !! b).

Definition acyclic_from (t : table) (a : string) : Prop :=
  forall b, rtc (dep_edge t) a b -> ~ tc (dep_edge t) b b.

Definition resolvable (t : table) (a : string) : Prop :=
  fully_registered t a /\ acyclic_from t a.

(** A chain of dependencies starting at [a]: [a] depends on the first
    element, which depends on the second, and so on. *)
Fixpoint chain (t : table) (a : string) (l : list string) : Prop :=
  match l with
  | [] => True
  | b :: l' => dep_edge t a b /\ chain t b l'
  end.

(** The depth of the dependency graph of [a] is at most [d]. *)
Definition depth_le (t : table) (a : string) (d : nat) : Prop :=
  forall l, chain t a l -> length l <= d.

(** [built t h a r ls]: the object at [r] in heap [h] is a fully wired
    instance for identity [a]: it was made from the registered constructor
    of [a], and its arguments are, in the declared order, fully wired
    instances for the declared dependencies.  [ls] lists the objects of
    the whole instance, every occurrence counted, dependencies first (from
    left to right) and the object itself last. *)
Inductive built (t : table) (h : list Obj) : string -> loc -> list loc -> Prop :=
| built_obj a p r xs ls :
    t !! a = Some p ->
    h !! r = Some (mkObj (Registry.impl p) xs) ->
    built_list t h (Registry.deps p) xs ls ->
    built t h a r (ls ++ [r])
with built_list (t : table) (h : list Obj) :
    list Constructor -> list loc -> list loc -> Prop :=
| built_nil : built_list t h [] [] []
| built_cons d ds x xs l ls :
    built t h (name d) x l ->
    built_list t h ds xs ls ->
    built_list t h (d :: ds) (x :: xs) (l ++ ls).

Scheme built_min := Minimality for built Sort Prop
  with built_list_min := Minimality for built_list Sort Prop.

Combined Scheme built_mutind from built_min, built_list_min.


(** [encounters t a k]: the walk that resolves [a] looks [k] up.  It looks
    up [a] itself; and it looks up what the walk of a declared dependency
    [d] of [a] looks up, provided the walk gets to [d], that is, every
    dependency declared before [d] resolves. *)
Inductive encounters (t : table) : string -> string -> Prop :=
| encounters_here a : encounters t a a
| encounters_dep a p before d after k :
    t !! a = Some p ->
    Registry.deps p = before ++ d :: after ->
    Forall (fun d' => resolvable t (name d')) before ->
    encounters t (name d) k ->
    encounters t a k.

(** One world differs from an earlier one only by objects added to the
    heap. *)
Definition extends (w w' : World) : Prop :=
  providers w' = providers w /\ paramtypes w' = paramtypes w /\
  schemas w' = schemas w /\ exists added, heap w' = heap w ++ added.

(** *** Placing a run elsewhere in the heap *)

(** An object moved [k] places up the heap, with the references it holds. *)
Definition shift_obj (k : nat) (o : Obj) : Obj :=
  mkObj (constructor o) (map (Nat.add k) (args o)).

Definition shift_outcome (k : nat) (o : Outcome loc) : Outcome loc :=
  match o with
  | Return r => Return (k + r)
  | Throw e => Throw e
  | OutOfFuel => OutOfFuel
  end.

(** [w] has the table of [e], and its heap is the heap of [e] placed after
    the objects [pre]. *)
Definition relocated (pre : list Obj) (e w : World) : Prop :=
  providers w = providers e /\
  heap w = pre ++ map (shift_obj (length pre)) (heap e).

(** The run of [resolve] in a process that has the table [t] and nothing
    else. *)
Definition resolve_in (t : table) (n : nat) (impl : Constructor) : Outcome loc * World :=
  resolve n impl (mkWorld t [] ∅ ∅).

(** *** A check for full registration *)

(** A set of identities that are all registered and that holds every
    declared dependency of each of them holds the whole graph of each. *)
Definition closed_under_deps (t : table) (S : list string) : bool :=
  forallb
    (fun x =>
       match t !! x with
       | Some p => forallb (fun d => bool_decide (name d ∈ S)) (Registry.deps p)
       | None => false
       end) S.

(** *** Histories of annotation *)

(** The classes [O] inherits from, starting with [O] itself. *)
Fixpoint prototype_chain (O : Constructor) : list Constructor :=
  match O with
  | Class _ _ parent =>
      O :: match parent with
           | Some P => prototype_chain P
           | None => []
           end
  end.

(** A history of [Schema(schema)(target)] calls, run in order. *)
Fixpoint attach_all (calls : list (ZodSchema * Constructor)) : M unit :=
  match calls with
  | [] => ret tt
  | (schema, target) :: calls' =>
      _ <~ Schema schema target ;; attach_all calls'
  end.

(** ** Example processes *)

(** What the compiler emits for a decorated class with constructor
    parameters: [Reflect.metadata('design:paramtypes', ds)(target)]. *)
Definition design_paramtypes (ds : list Constructor) (target : Constructor) : M unit :=
  modify (fun w => set_paramtypes (OrdinaryDefineOwnMetadata ds target (paramtypes w)) w).

(** The state after running a list of load-time steps in order. *)
Fixpoint load (steps : list (M unit)) (w : World) : World :=
  match steps with
  | [] => w
  | m :: steps' => load steps' (m w).2
  end.

Definition cC : Constructor := Class 1 "C" None.
Definition cA : Constructor := Class 2 "A" None.
Definition cB : Constructor := Class 3 "B" None.
Definition cRoot : Constructor := Class 4 "Root" None.

(** [Root(A, B)], [A(C)], [B()], [C()]. *)
Definition tree_world : World :=
  load [ Injectable cC;
         design_paramtypes [cC] cA; Injectable cA;
         Injectable cB;
         design_paramtypes [cA; cB] cRoot; Injectable cRoot ] initial.

Definition cMissing : Constructor := Class 5 "Missing" None.
Definition cMid : Constructor := Class 6 "Mid" None.
Definition cLow : Constructor := Class 7 "Low" None.
Definition cTop : Constructor := Class 8 "Top" None.

(** [Top(C, Mid)], [Mid(Low)], [Low(Missing)], with [Missing] never
    registered: the missing identity is three levels below the request. *)
Definition gap_world : World :=
  load [ Injectable cC;
         design_paramtypes [cMissing] cLow; Injectable cLow;
         design_paramtypes [cLow] cMid; Injectable cMid;
         design_paramtypes [cC; cMid] cTop; Injectable cTop ] initial.

Definition cycA : Constructor := Class 11 "A" None.
Definition cycB : Constructor := Class 12 "B" None.

(** [A(B)] and [B(A)], both registered. *)
Definition cycle_world : World :=
  load [ design_paramtypes [cycB] cycA; Injectable cycA;
         design_paramtypes [cycA] cycB; Injectable cycB ] initial.

Definition cLeft : Constructor := Class 31 "Left" None.
Definition cRight : Constructor := Class 32 "Right" None.
Definition cDiamond : Constructor := Class 33 "Diamond" None.

(** [Diamond(Left, Right)], [Left(C)], [Right(C)]: [C] is needed on both
    branches. *)
Definition diamond_world : World :=
  load [ Injectable cC;
         design_paramtypes [cC] cLeft; Injectable cLeft;
         design_paramtypes [cC] cRight; Injectable cRight;
         design_paramtypes [cLeft; cRight] cDiamond; Injectable cDiamond ] initial.

(** A controller class with a schema, a class that extends it, and an
    unrelated one. *)
Definition cBase : Constructor := Class 41 "BaseController" None.
Definition cDerived : Constructor := Class 42 "DerivedController" (Some cBase).
Definition cPlain : Constructor := Class 43 "PlainController" None.
Definition cPlainChild : Constructor := Class 44 "PlainChildController" (Some cPlain).

(** Two classes with one name. *)
Definition cService : Constructor := Class 51 "Service" None.
Definition cImpostor : Constructor := Class 52 "Service" None.

(** ** kernel/di/Registry.ts: the static side of the class *)

Module Singleton.

(** The process with the class [Registry] in it.  [instance] is the static
    field [Registry.instance]: undefined, or a reference to a [Registry]
    object.  [registries] holds the [Registry] objects made by
    [new Registry()], in creation order, each given by its [providers] map;
    a reference is an index into it.  [objects], [design] and [custom] are
    the heap and the two metadata keys, as in [World]. *)
Record Process : Type := mkProcess {
  instance : option nat;
  registries : list table;
  objects : list Obj;
  design : gmap nat (list Constructor);
  custom : gmap nat ZodSchema;
}.

(** Start-up: [Registry.instance] is undefined and no registry exists. *)
Definition start : Process := mkProcess None [] [] ∅ ∅.

(** [static getInstance()]: the private constructor leaves a new registry
    with an empty [providers] map. *)
Definition getInstance (p : Process) : nat * Process :=
  match instance p with
  | Some r => (r, p)
  | None =>
      let r := length (registries p) in
      (r, mkProcess (Some r) (registries p ++ [∅]) (objects p) (design p) (custom p))
  end.

(** What a method running on the registry [r] works on: [this.providers]
    is the map of [r]. *)
Definition this_world (r : nat) (p : Process) : option World :=
  match registries p !! r with
  | Some t => Some (mkWorld t (objects p) (design p) (custom p))
  | None => None
  end.

(** A method call [r.m(...)].  There is no answer when [r] refers to no
    registry, which no run of the program brings about. *)
Definition method {A} (r : nat) (m : M A) (p : Process) : option (Outcome A * Process) :=
  match this_world r p with
  | Some w =>
      let '(o, w') := m w in
      Some (o, mkProcess (instance p) (<[r := providers w']> (registries p))
                 (heap w') (paramtypes w') (schemas w'))
  | None => None
  end.

(** [Injectable()(target)]: [Registry.getInstance().register(target)]. *)
Definition Injectable (target : Constructor) (p : Process) : option (Outcome unit * Process) :=
  let '(r, p1) := getInstance p in method r (register target) p1.

(** [Registry.getInstance().resolve(impl)], as the class documentation
    uses it. *)
Definition resolve_instance (fuel : nat) (impl : Constructor) (p : Process) :
    option (Outcome loc * Process) :=
  let '(r, p1) := getInstance p in method r (resolve fuel impl) p1.

(** [Reflect.metadata('design:paramtypes', ds)(target)] and
    [Schema(schema)(target)], which touch no registry. *)
Definition define_paramtypes (ds : list Constructor) (target : Constructor) (p : Process) : Process :=
  mkProcess (instance p) (registries p) (objects p)
    (OrdinaryDefineOwnMetadata ds target (design p)) (custom p).

Definition define_schema (schema : ZodSchema) (target : Constructor) (p : Process) : Process :=
  mkProcess (instance p) (registries p) (objects p) (design p)
    (OrdinaryDefineOwnMetadata schema target (custom p)).

(** The calls a program can make, and a run of a sequence of them. *)
Inductive Call : Type :=
| CallGetInstance
| CallInjectable (target : Constructor)
| CallResolve (fuel : nat) (impl : Constructor)
| CallParamtypes (ds : list Constructor) (target : Constructor)
| CallSchema (schema : ZodSchema) (target : Constructor).

Definition step (c : Call) (p : Process) : option Process :=
  match c with
  | CallGetInstance => Some (getInstance p).2
  | CallInjectable target => snd <$> Injectable target p
  | CallResolve fuel impl => snd <$> resolve_instance fuel impl p
  | CallParamtypes ds target => Some (define_paramtypes ds target p)
  | CallSchema schema target => Some (define_schema schema target p)
  end.

Fixpoint run (calls : list Call) (p : Process) : option Process :=
  match calls with
  | [] => Some p
  | c :: calls' =>
      match step c p with
      | Some p' => run calls' p'
      | None => None
      end
  end.

(** The process as the flat model sees it: the table is the map of the
    registry [Registry.instance] refers to, and is empty while there is
    none. *)
Definition view (p : Process) : World :=
  mkWorld
    match instance p with
    | Some r => default ∅ (registries p !! r)
    | None => ∅
    end
    (objects p) (design p) (custom p).

(** No registry yet, or exactly one, which [Registry.instance] refers
    to. *)
Definition single (p : Process) : Prop :=
  match instance p with
  | None => registries p = []
  | Some r => r = 0 /\ length (registries p) = 1
  end.

End Singleton.

(** ** The upload script *)

Module Upload.

(** A part of a [FormData]: a string, or a file ([Blob] content and type,
    with the file name given to [append]). *)
Inductive FormValue : Type :=
| TextValue (value : string)
| FileValue (data : list Byte.byte) (type : string) (filename : string).

(** A [FormData] is the list of its parts in the order they were
    appended; [append] never replaces a part of the same name. *)
Definition FormData : Type := list (string * FormValue).

Definition append (form : FormData) (key : string) (value : FormValue) : FormData :=
  form ++ [(key, value)].

(** [buildFormData(fields, fileData, filename, fileType)].  [fields] is
    given as the sequence [Object.entries(fields)] runs through. *)
Definition buildFormData (fields : list (string * string)) (fileData : list Byte.byte)
    (filename fileType : string) : FormData :=
  let form :=
    fold_left (fun form '(key, value) => append form key (TextValue value)) fields [] in
  append form "file" (FileValue fileData fileType filename).

(** What [fetch] is called with (the body is kept structured; the script
    sends [JSON.stringify({ file: { type, size } })] or a form). *)
Inductive Body : Type :=
| JsonFile (type : string) (size : nat)
| Form (form : FormData).

Record Request : Type := mkRequest {
  url : string;
  method : string;
  headers : list (string * string);
  body : Body;
}.

(** What the script reads of a response: [ok], [status], [statusText],
    the outcome of [text()], and the [uploadSignature] of the outcome of
    [json()]. *)
Record Response : Type := mkResponse {
  ok : bool;
  status : nat;
  statusText : string;
  text : Outcome string;
  uploadSignature : Outcome string;
}.

(** [IPresignDecoded]. *)
Record IPresignDecoded : Type := mkDecoded {
  decoded_url : string;
  fields : list (string * string);
}.

(** The world outside the script: the file system, the network, the
    library calls on strings, and the constant [TOKEN].  [decode] is
    [JSON.parse(Buffer.from(s, 'base64').toString('utf-8'))]. *)
Record Env : Type := mkEnv {
  readFile : string -> Outcome (list Byte.byte);
  fetch : Request -> Outcome Response;
  decode : string -> Outcome IPresignDecoded;
  basename : string -> string;
  TOKEN : string;
}.

Definition API_URL : string := "https://api.danillotorresdev.com.br/meals".

(** A step of the script: it may send requests, which are recorded in the
    order sent.  What the script prints is left out. *)
Definition IO (A : Type) : Type := list Request -> Outcome A * list Request.

Definition io_ret {A} (a : A) : IO A := fun tr => (Return a, tr).

Definition io_throw {A} (e : JsError) : IO A := fun tr => (Throw e, tr).

Definition io_bind {A B} (m : IO A) (k : A -> IO B) : IO B :=
  fun tr =>
    match m tr with
    | (Return a, tr') => k a tr'
    | (Throw e, tr') => (Throw e, tr')
    | (OutOfFuel, tr') => (OutOfFuel, tr')
    end.

(** [await] of a call whose outcome the outside world decides. *)
Definition await {A} (o : Outcome A) : IO A := fun tr => (o, tr).

Definition do_fetch (env : Env) (req : Request) : IO Response :=
  fun tr => (fetch env req, tr ++ [req]).

(** [try { m } catch (err) { h(err) }]. *)
Definition try_catch {A} (m : IO A) (h : JsError -> IO A) : IO A :=
  fun tr =>
    match m tr with
    | (Throw e, tr') => h e tr'
    | other => other
    end.

(** [readImageFile(filePath)]: [{ data, size: data.length, type }]. *)
Definition readImageFile (env : Env) (filePath : string) :
    IO (list Byte.byte * nat * string) :=
  io_bind (await (readFile env filePath)) (fun data =>
  io_ret (data, length data, "image/jpeg")).

(** [createMeal(fileType, fileSize)]. *)
Definition createMeal (env : Env) (fileType : string) (fileSize : nat) : IO IPresignDecoded :=
  io_bind (do_fetch env
             (mkRequest API_URL "POST"
                [("Content-Type", "application/json");
                 ("Authorization", "Bearer " +:+ TOKEN env)]
                (JsonFile fileType fileSize))) (fun res =>
  if negb (ok res) then
    io_throw (Error ("Failed to get presigned POST: " +:+ pretty (status res)
                       +:+ " " +:+ statusText res))
  else
    io_bind (await (uploadSignature res)) (fun signature =>
    io_bind (await (decode env signature)) (fun decoded =>
    io_ret decoded))).

(** [uploadToS3(url, form)]. *)
Definition uploadToS3 (env : Env) (url : string) (form : FormData) : IO unit :=
  io_bind (do_fetch env (mkRequest url "POST" [] (Form form))) (fun res =>
  if negb (ok res) then
    io_bind (await (text res)) (fun text =>
    io_throw (Error ("S3 upload failed: " +:+ pretty (status res) +:+ " "
                       +:+ statusText res +:+ " — " +:+ text)))
  else io_ret tt).

(** [uploadMealImage(filePath)]. *)
Definition uploadMealImage (env : Env) (filePath : string) : IO unit :=
  try_catch
    (io_bind (readImageFile env filePath) (fun '(data, size, type) =>
     io_bind (createMeal env type size) (fun decoded =>
     let form := buildFormData (fields decoded) data (basename env filePath) type in
     uploadToS3 env (decoded_url decoded) form)))
    (fun err => io_throw err).

(** The last statement of the script:
    [uploadMealImage(path).catch(() => process.exit(1))]; the result is the
    exit status the script asks for, if it asks for one. *)
Definition main (env : Env) (path : string) : option nat * list Request :=
  match uploadMealImage env path [] with
  | (Throw _, tr) => (Some 1, tr)
  | (_, tr) => (None, tr)
  end.

(** The two requests of the script, for reference: the one [createMeal]
    sends for a file of the given type and size, and the one [uploadToS3]
    sends. *)
Definition presign_request (env : Env) (fileType : string) (fileSize : nat) : Request :=
  mkRequest API_URL "POST"
    [("Content-Type", "application/json");
     ("Authorization", "Bearer " +:+ TOKEN env)]
    (JsonFile fileType fileSize).

Definition s3_request (url : string) (form : FormData) : Request :=
  mkRequest url "POST" [] (Form form).

(** An outside world for examples: a three-byte file; an API that answers
    with the given response; a bucket that answers with the given
    response. *)
Definition example_decoded : IPresignDecoded :=
  mkDecoded "https://bucket.example" [("key", "meals/1.jpg"); ("policy", "p")].

Definition example_env (api bucket : Response) : Env :=
  mkEnv
    (fun _ => Return [Byte.x01; Byte.x02; Byte.x03])
    (fun req => if String.eqb (url req) API_URL then Return api else Return bucket)
    (fun _ => Return example_decoded)
    (fun _ => "cover.jpg")
    "token".

Definition response_ok : Response :=
  mkResponse true 200 "OK" (Return EmptyString) (Return "c2lnbmF0dXJl").

Definition response_forbidden : Response :=
  mkResponse false 403 "Forbidden" (Return "denied") (Return EmptyString).

End Upload.

(** ** Equations of the definitions *)

Lemma mapM_nil {A B} (f : A -> M B) w : mapM f [] w = (Return [], w).
Proof. reflexivity. Qed.

Lemma mapM_cons {A B} (f : A -> M B) x xs w :
  mapM f (x :: xs) w =
  match f x w with
  | (Return y, w1) =>
      match mapM f xs w1 with
      | (Return ys, w2) => (Return (y :: ys), w2)
      | (Throw e, w2) => (Throw e, w2)
      | (OutOfFuel, w2) => (OutOfFuel, w2)
      end
  | (Throw e, w1) => (Throw e, w1)
  | (OutOfFuel, w1) => (OutOfFuel, w1)
  end.
Proof.
  simpl. unfold bind.
  destruct (f x w) as [[y| |] w1]; reflexivity.
Qed.

Lemma resolve_O impl w : resolve 0 impl w = (OutOfFuel, w).
Proof. reflexivity. Qed.

Lemma resolve_S n impl w :
  resolve (S n) impl w =
  match providers w !! name impl with
  | None => (Throw (UnregisteredType (name impl)), w)
  | Some p =>
      match mapM (resolve n) (Registry.deps p) w with
      | (Return xs, w') =>
          (Return (length (heap w')),
           set_heap (heap w' ++ [mkObj (Registry.impl p) xs]) w')
      | (Throw e, w') => (Throw e, w')
      | (OutOfFuel, w') => (OutOfFuel, w')
      end
  end.
Proof.
  simpl. unfold bind, gets.
  destruct (providers w !! name impl) as [p|]; [|reflexivity].
  destruct (mapM (resolve n) (Registry.deps p) w) as [[xs| |] w']; reflexivity.
Qed.

Lemma register_eq impl w :
  register impl w =
  match providers w !! name impl with
  | Some _ => (Throw (DuplicateRegistration (name impl)), w)
  | None =>
      (Return tt,
       set_providers
         (<[name impl :=
              Registry.mkProvider impl
                (default [] (OrdinaryGetMetadata (paramtypes w) impl))]>
            (providers w)) w)
  end.
Proof.
  unfold register, bind, gets, modify, throw.
  destruct (providers w !! name impl) as [p|] eqn:E.
  - rewrite bool_decide_eq_true_2 by eauto. reflexivity.
  - rewrite bool_decide_eq_false_2 by (intros [? ?]; congruence). reflexivity.
Qed.

(** Only the name of the requested class matters to [resolve]. *)
Lemma resolve_name n impl impl' w :
  name impl = name impl' -> resolve n impl w = resolve n impl' w.
Proof.
  intros E. destruct n; [reflexivity|]. rewrite !resolve_S, E. reflexivity.
Qed.

(** ** The error messages name their identity *)

Lemma string_length_app a s :
  String.length (a +:+ s) = String.length a + String.length s.
Proof. induction a as [|c a IH]; simpl; [reflexivity|by rewrite IH]. Qed.

Lemma string_app_inj_r s : forall a b, a +:+ s = b +:+ s -> a = b.
Proof.
  induction a as [|c a IH]; intros [|c' b] H.
  - reflexivity.
  - apply (f_equal String.length) in H.
    rewrite !string_length_app in H. simpl in H. lia.
  - apply (f_equal String.length) in H.
    rewrite !string_length_app in H. simpl in H. lia.
  - change (String c (a +:+ s) = String c' (b +:+ s)) in H.
    injection H as -> H. f_equal. by apply IH.
Qed.

Lemma quoted_inj a b : quoted a = quoted b -> a = b.
Proof.
  unfold quoted. intros H. apply String.app_inj in H.
  by apply string_app_inj_r in H.
Qed.

Lemma UnregisteredType_inj a b : UnregisteredType a = UnregisteredType b -> a = b.
Proof.
  intros H.
  assert (H' : quoted a +:+ " is not registered." =
               quoted b +:+ " is not registered.")
    by (unfold UnregisteredType in H; congruence).
  apply string_app_inj_r in H'. by apply quoted_inj.
Qed.

Lemma DuplicateRegistration_inj a b :
  DuplicateRegistration a = DuplicateRegistration b -> a = b.
Proof.
  intros H.
  assert (H' : quoted a +:+ " is already registered in the registry." =
               quoted b +:+ " is already registered in the registry.")
    by (unfold DuplicateRegistration in H; congruence).
  apply string_app_inj_r in H'. by apply quoted_inj.
Qed.

(** ** What a call leaves behind *)

Lemma extends_refl w : extends w w.
Proof. repeat split. exists []. by rewrite app_nil_r. Qed.

Lemma extends_trans w1 w2 w3 : extends w1 w2 -> extends w2 w3 -> extends w1 w3.
Proof.
  intros (P1 & Q1 & S1 & a1 & H1) (P2 & Q2 & S2 & a2 & H2).
  repeat split; try congruence.
  exists (a1 ++ a2). rewrite H2, H1. by rewrite app_assoc.
Qed.

Lemma extends_new w C xs : extends w (set_heap (heap w ++ [mkObj C xs]) w).
Proof. repeat split. by eexists. Qed.

Lemma mapM_extends {A B} (f : A -> M B) xs :
  (forall x w, x ∈ xs -> extends w (f x w).2) ->
  forall w, extends w (mapM f xs w).2.
Proof.
  induction xs as [|x xs IH]; intros Hf w.
  - apply extends_refl.
  - rewrite mapM_cons.
    pose proof (Hf x w ltac:(left)) as Hx.
    destruct (f x w) as [[y| |] w1]; simpl in *; try exact Hx.
    pose proof (IH (fun x' w' Hin => Hf x' w' ltac:(right; exact Hin)) w1) as Hxs.
    destruct (mapM f xs w1) as [[ys| |] w2]; simpl in *;
      eapply extends_trans; eauto.
Qed.

Lemma resolve_extends n : forall impl w, extends w (resolve n impl w).2.
Proof.
  induction n as [|n IH]; intros impl w.
  - apply extends_refl.
  - rewrite resolve_S.
    destruct (providers w !! name impl) as [p|]; [|apply extends_refl].
    pose proof (mapM_extends (resolve n) (Registry.deps p) (fun x w' _ => IH x w') w) as H.
    destruct (mapM (resolve n) (Registry.deps p) w) as [[xs| |] w']; simpl in *; try exact H.
    eapply extends_trans; [exact H|apply extends_new].
Qed.

(** ** Wired instances *)

Lemma built_weaken t h h' :
  (forall l o, h !! l = Some o -> h' !! l = Some o) ->
  (forall a r ls, built t h a r ls -> built t h' a r ls) /\
  (forall ds xs ls, built_list t h ds xs ls -> built_list t h' ds xs ls).
Proof.
  intros Hh. apply built_mutind; intros; econstructor; eauto.
Qed.

Lemma built_app t h added a r ls :
  built t h a r ls -> built t (h ++ added) a r ls.
Proof.
  apply built_weaken. intros l o Hl. by apply lookup_app_l_Some.
Qed.

Lemma built_list_app t h added ds xs ls :
  built_list t h ds xs ls -> built_list t (h ++ added) ds xs ls.
Proof.
  apply built_weaken. intros l o Hl. by apply lookup_app_l_Some.
Qed.

(** An instance depends on the heap only at its own objects. *)
Lemma built_local t h h' :
  (forall a r ls, built t h a r ls ->
     (forall l, l ∈ ls -> h' !! l = h !! l) -> built t h' a r ls) /\
  (forall ds xs ls, built_list t h ds xs ls ->
     (forall l, l ∈ ls -> h' !! l = h !! l) -> built_list t h' ds xs ls).
Proof.
  apply built_mutind.
  - intros a p r xs ls Ha Hr _ IH Hl. econstructor; eauto.
    + rewrite Hl; [exact Hr|]. apply elem_of_app. right. by apply list_elem_of_singleton.
    + apply IH. intros l Hin. apply Hl, elem_of_app. by left.
  - intros _. constructor.
  - intros d ds x xs l ls _ IH1 _ IH2 Hl. constructor.
    + apply IH1. intros l' Hin. apply Hl, elem_of_app. by left.
    + apply IH2. intros l' Hin. apply Hl, elem_of_app. by right.
Qed.

(** The arguments of a wired instance are as many as the declared
    dependencies. *)
Lemma built_list_length t h ds xs ls :
  built_list t h ds xs ls -> length xs = length ds.
Proof. induction 1; simpl; congruence. Qed.

(** Each argument, at its position, is a wired instance for the dependency
    declared at that position. *)
Lemma built_list_lookup t h ds xs ls i d :
  built_list t h ds xs ls -> ds !! i = Some d ->
  exists x l, xs !! i = Some x /\ built t h (name d) x l.
Proof.
  intros H. revert i. induction H as [|d0 ds x xs l ls Hb Hl IH]; intros i Hi.
  - by rewrite lookup_nil in Hi.
  - destruct i as [|i]; simpl in *.
    + injection Hi as <-. eauto.
    + eauto.
Qed.

(** The class of a wired instance is the registered constructor. *)
Lemma built_constructor t h a r ls :
  built t h a r ls ->
  exists p xs, t !! a = Some p /\ h !! r = Some (mkObj (Registry.impl p) xs) /\
    exists ls', built_list t h (Registry.deps p) xs ls' /\ ls = ls' ++ [r].
Proof. destruct 1; eauto 10. Qed.

(** ** What [resolve] returns *)

Section resolve_returns.

Variable n : nat.

Hypothesis IH : forall impl w r w',
  resolve n impl w = (Return r, w') ->
  exists added, heap w' = heap w ++ added /\
    built (providers w) (heap w') (name impl) r
      (seq (length (heap w)) (length added)).

Lemma mapM_resolve_built ds : forall w xs w',
  mapM (resolve n) ds w = (Return xs, w') ->
  exists added, heap w' = heap w ++ added /\
    built_list (providers w) (heap w') ds xs
      (seq (length (heap w)) (length added)).
Proof using IH.
  induction ds as [|d ds IHds]; intros w xs w' H.
  - rewrite mapM_nil in H. injection H as <- <-.
    exists []. rewrite app_nil_r. split; [done|constructor].
  - rewrite mapM_cons in H.
    destruct (resolve n d w) as [[x| |] w1] eqn:E1; try discriminate.
    destruct (mapM (resolve n) ds w1) as [[ys| |] w2] eqn:E2; try discriminate.
    injection H as <- <-.
    destruct (IH _ _ _ _ E1) as (a1 & H1 & B1).
    destruct (IHds _ _ _ E2) as (a2 & H2 & B2).
    pose proof (resolve_extends n d w) as (P1 & _). rewrite E1 in P1. simpl in P1.
    exists (a1 ++ a2). split.
    + rewrite H2, H1. by rewrite app_assoc.
    + rewrite length_app, seq_app. constructor.
      * rewrite H2. by apply built_app.
      * rewrite P1, H1, length_app in B2. exact B2.
Qed.

End resolve_returns.

Lemma resolve_built n : forall impl w r w',
  resolve n impl w = (Return r, w') ->
  exists added, heap w' = heap w ++ added /\
    built (providers w) (heap w') (name impl) r
      (seq (length (heap w)) (length added)).
Proof.
  induction n as [|n IH]; intros impl w r w' H.
  - rewrite resolve_O in H. discriminate.
  - rewrite resolve_S in H.
    destruct (providers w !! name impl) as [p|] eqn:Ep; [|discriminate].
    destruct (mapM (resolve n) (Registry.deps p) w) as [[xs| |] w1] eqn:E; try discriminate.
    injection H as <- <-.
    destruct (mapM_resolve_built n IH _ _ _ _ E) as (added & Hh & B).
    exists (added ++ [mkObj (Registry.impl p) xs]). simpl. split.
    + rewrite Hh. by rewrite app_assoc.
    + rewrite length_app. simpl. rewrite seq_app. simpl.
      replace (length (heap w) + length added) with (length (heap w1))
        by (rewrite Hh, length_app; reflexivity).
      econstructor; [exact Ep| |by apply built_list_app].
      apply list_lookup_middle. reflexivity.
Qed.

(** ** Where a failure of the loop over the dependencies comes from *)

Section mapM_failures.

Context {A B : Type} (f : A -> M B).

Hypothesis f_extends : forall x w, extends w (f x w).2.

Lemma mapM_Throw xs : forall w e w',
  mapM f xs w = (Throw e, w') ->
  exists x w0, x ∈ xs /\ extends w w0 /\ f x w0 = (Throw e, w').
Proof using f_extends.
  induction xs as [|x xs IHxs]; intros w e w' H.
  - rewrite mapM_nil in H. discriminate.
  - rewrite mapM_cons in H. pose proof (f_extends x w) as Hx.
    destruct (f x w) as [[y| |] w1] eqn:E1; simpl in Hx.
    + destruct (mapM f xs w1) as [[ys| |] w2] eqn:E2; try discriminate.
      injection H as <- <-.
      destruct (IHxs _ _ _ E2) as (x' & w0 & Hin & Hext & Hf).
      exists x', w0. split; [by right|]. split; [|done].
      eapply extends_trans; eauto.
    + injection H as <- <-. exists x, w. split; [by left|].
      split; [apply extends_refl|done].
    + discriminate.
Qed.

Lemma mapM_OutOfFuel xs : forall w w',
  mapM f xs w = (OutOfFuel, w') ->
  exists x w0, x ∈ xs /\ extends w w0 /\ f x w0 = (OutOfFuel, w').
Proof using f_extends.
  induction xs as [|x xs IHxs]; intros w w' H.
  - rewrite mapM_nil in H. discriminate.
  - rewrite mapM_cons in H. pose proof (f_extends x w) as Hx.
    destruct (f x w) as [[y| |] w1] eqn:E1; simpl in Hx.
    + destruct (mapM f xs w1) as [[ys| |] w2] eqn:E2; try discriminate.
      injection H as <-.
      destruct (IHxs _ _ E2) as (x' & w0 & Hin & Hext & Hf).
      exists x', w0. split; [by right|]. split; [|done].
      eapply extends_trans; eauto.
    + discriminate.
    + injection H as <-. exists x, w. split; [by left|].
      split; [apply extends_refl|done].
Qed.

End mapM_failures.

Lemma dep_edge_intro t a p d :
  t !! a = Some p -> d ∈ Registry.deps p -> dep_edge t a (name d).
Proof. intros. exists p, d. auto. Qed.

(** The only error [resolve] throws is the one for a missing entry, and the
    identity it names is a missing one of the dependency graph. *)
Lemma resolve_Throw n : forall impl w e w',
  resolve n impl w = (Throw e, w') ->
  exists k, e = UnregisteredType k /\ providers w !! k = None /\
    rtc (dep_edge (providers w)) (name impl) k.
Proof.
  induction n as [|n IH]; intros impl w e w' H.
  - rewrite resolve_O in H. discriminate.
  - rewrite resolve_S in H.
    destruct (providers w !! name impl) as [p|] eqn:Ep.
    + destruct (mapM (resolve n) (Registry.deps p) w) as [[xs| |] w1] eqn:E;
        try discriminate.
      injection H as <- <-.
      destruct (mapM_Throw _ (resolve_extends n) _ _ _ _ E)
        as (d & w0 & Hin & (P0 & _) & Hd).
      destruct (IH _ _ _ _ Hd) as (k & -> & Hk & Hreach).
      rewrite P0 in Hk, Hreach.
      exists k. split; [done|]. split; [done|].
      eapply rtc_l; [|exact Hreach]. by eapply dep_edge_intro.
    + injection H as <- <-. exists (name impl). split; [done|]. split; [done|].
      apply rtc_refl.
Qed.

(** A call that runs out of stack at depth [n] has followed a chain of [n]
    dependencies. *)
Lemma resolve_OutOfFuel n : forall impl w w',
  resolve n impl w = (OutOfFuel, w') ->
  exists l, chain (providers w) (name impl) l /\ length l = n.
Proof.
  induction n as [|n IH]; intros impl w w' H.
  - exists []. split; [exact I|reflexivity].
  - rewrite resolve_S in H.
    destruct (providers w !! name impl) as [p|] eqn:Ep; [|discriminate].
    destruct (mapM (resolve n) (Registry.deps p) w) as [[xs| |] w1] eqn:E;
      try discriminate.
    injection H as <-.
    destruct (mapM_OutOfFuel _ (resolve_extends n) _ _ _ E)
      as (d & w0 & Hin & (P0 & _) & Hd).
    destruct (IH _ _ _ Hd) as (l & Hl & Hlen).
    rewrite P0 in Hl.
    exists (name d :: l). split; [|simpl; congruence].
    split; [by eapply dep_edge_intro|exact Hl].
Qed.

(** ** Dependency graphs *)

Lemma chain_tc t : forall l a x,
  chain t a l -> x ∈ l -> tc (dep_edge t) a x.
Proof.
  induction l as [|b l IH]; intros a x Hc Hin.
  - by apply elem_of_nil in Hin.
  - destruct Hc as [Hab Hc]. apply elem_of_cons in Hin as [->|Hin].
    + by apply tc_once.
    + eapply tc_l; [exact Hab|]. by apply IH.
Qed.

Lemma acyclic_from_step t a b :
  acyclic_from t a -> dep_edge t a b -> acyclic_from t b.
Proof. intros Ha Hab c Hbc. apply Ha. by eapply rtc_l. Qed.

Lemma fully_registered_step t a b :
  fully_registered t a -> dep_edge t a b -> fully_registered t b.
Proof. intros Ha Hab c Hbc. apply Ha. by eapply rtc_l. Qed.

Lemma chain_NoDup t : forall l a,
  acyclic_from t a -> chain t a l -> NoDup (a :: l).
Proof.
  induction l as [|b l IH]; intros a Ha Hc.
  - apply NoDup_singleton.
  - apply NoDup_cons. split.
    + intros Hin. apply (Ha a (rtc_refl _ _)). by eapply chain_tc.
    + destruct Hc as [Hab Hc]. apply IH; [|exact Hc].
      by eapply acyclic_from_step.
Qed.

Lemma chain_registered t l a x :
  fully_registered t a -> chain t a l -> x ∈ a :: l -> is_Some (t !! x).
Proof.
  intros Ha Hc Hin. apply Ha. apply elem_of_cons in Hin as [->|Hin].
  - apply rtc_refl.
  - apply tc_rtc. by eapply chain_tc.
Qed.

(** A graph that is fully registered and acyclic is no deeper than the
    table is large: a chain never meets an entry twice. *)
Lemma resolvable_depth t a :
  resolvable t a -> depth_le t a (size t - 1) /\ 0 < size t.
Proof.
  intros [Hreg Hacyc].
  assert (Hlen : forall l, chain t a l -> length (a :: l) <= size t).
  { intros l Hc.
    rewrite <- size_dom. unfold size, set_size.
    change (length (a :: l) <= length (elements (dom t))).
    apply submseteq_length, NoDup_submseteq; [by eapply chain_NoDup|].
    intros x Hin. apply elem_of_elements, elem_of_dom.
    by eapply chain_registered. }
  split.
  - intros l Hc. specialize (Hlen l Hc). simpl in Hlen. lia.
  - specialize (Hlen [] I). simpl in Hlen. lia.
Qed.

(** With every identity of the graph registered, a stack deeper than the
    graph is enough. *)
Lemma resolve_Return_at_depth t a d n impl w :
  fully_registered t a -> depth_le t a d -> d < n ->
  name impl = a -> providers w = t ->
  exists r w', resolve n impl w = (Return r, w').
Proof.
  intros Hreg Hd Hn <- <-.
  destruct (resolve n impl w) as [[r|e|] w'] eqn:E.
  - eauto.
  - destruct (resolve_Throw _ _ _ _ _ E) as (k & _ & Hk & Hreach).
    destruct (Hreg k Hreach) as [p Hp]. congruence.
  - destruct (resolve_OutOfFuel _ _ _ _ E) as (l & Hl & Hlen).
    specialize (Hd l Hl). lia.
Qed.

Lemma resolvable_Return t a n impl w :
  resolvable t a -> size t <= n ->
  name impl = a -> providers w = t ->
  exists r w', resolve n impl w = (Return r, w').
Proof.
  intros Hres Hn Ha Hw.
  destruct (resolvable_depth _ _ Hres) as [Hd Hpos].
  eapply resolve_Return_at_depth; eauto; [apply Hres|lia].
Qed.

Lemma resolvable_intro t a p :
  t !! a = Some p ->
  Forall (fun d => resolvable t (name d)) (Registry.deps p) ->
  resolvable t a.
Proof.
  intros Hp Hdeps.
  assert (Hstep : forall c, dep_edge t a c -> resolvable t c).
  { intros c (p' & d & Hp' & Hin & <-).
    assert (p' = p) as -> by congruence.
    rewrite Forall_forall in Hdeps. by apply Hdeps. }
  assert (Hself : ~ tc (dep_edge t) a a).
  { intros Hcyc.
    assert (exists c, dep_edge t a c /\ rtc (dep_edge t) c a) as (c & Hac & Hca).
    { inversion Hcyc; subst; [eexists; split; [eassumption|apply rtc_refl]|].
      eexists; split; [eassumption|by apply tc_rtc]. }
    destruct (Hstep c Hac) as [_ Hacyc]. exact (Hacyc a Hca Hcyc). }
  split; intros b Hab.
  - inversion Hab; subst; [eauto|]. by eapply Hstep.
  - inversion Hab; subst; [exact Hself|]. by eapply Hstep.
Qed.

Lemma resolvable_deps t a p d :
  resolvable t a -> t !! a = Some p -> d ∈ Registry.deps p ->
  resolvable t (name d).
Proof.
  intros [Hreg Hacyc] Hp Hin.
  pose proof (dep_edge_intro _ _ _ _ Hp Hin) as Hedge.
  split; [by eapply fully_registered_step|by eapply acyclic_from_step].
Qed.

(** A wired instance exists only for an identity whose graph is fully
    registered and acyclic. *)
Lemma built_resolvable t h :
  (forall a r ls, built t h a r ls -> resolvable t a) /\
  (forall ds xs ls, built_list t h ds xs ls ->
     Forall (fun d => resolvable t (name d)) ds).
Proof.
  apply built_mutind.
  - intros a p r xs ls Hp _ _ IH. by eapply resolvable_intro.
  - constructor.
  - intros d ds x xs l ls _ IH1 _ IH2. by constructor.
Qed.

Lemma resolve_Return_resolvable n impl w r w' :
  resolve n impl w = (Return r, w') -> resolvable (providers w) (name impl).
Proof.
  intros H. destruct (resolve_built _ _ _ _ _ H) as (added & _ & Hb).
  by eapply built_resolvable.
Qed.

(** ** A deeper stack changes nothing for a call that ended *)

Lemma mapM_mono {A B} (f g : A -> M B) xs :
  (forall x w o w', f x w = (o, w') -> o <> OutOfFuel -> g x w = (o, w')) ->
  forall w o w', mapM f xs w = (o, w') -> o <> OutOfFuel -> mapM g xs w = (o, w').
Proof.
  intros Hfg. induction xs as [|x xs IH]; intros w o w' H Ho.
  - exact H.
  - rewrite mapM_cons in *.
    destruct (f x w) as [[y| |] w1] eqn:E1.
    + rewrite (Hfg _ _ _ _ E1) by discriminate.
      destruct (mapM f xs w1) as [[ys| |] w2] eqn:E2.
      * rewrite (IH _ _ _ E2) by discriminate. exact H.
      * rewrite (IH _ _ _ E2) by discriminate. exact H.
      * injection H as <- <-. congruence.
    + rewrite (Hfg _ _ _ _ E1) by discriminate. exact H.
    + injection H as <- <-. congruence.
Qed.

Lemma resolve_fuel_S n : forall impl w o w',
  resolve n impl w = (o, w') -> o <> OutOfFuel -> resolve (S n) impl w = (o, w').
Proof.
  induction n as [|n IH]; intros impl w o w' H Ho.
  - rewrite resolve_O in H. injection H as <- <-. congruence.
  - rewrite resolve_S in H. rewrite resolve_S.
    destruct (providers w !! name impl) as [p|]; [|exact H].
    destruct (mapM (resolve n) (Registry.deps p) w) as [[xs| |] w1] eqn:E.
    + rewrite (mapM_mono _ _ _ IH _ _ _ E) by discriminate. exact H.
    + rewrite (mapM_mono _ _ _ IH _ _ _ E) by discriminate. exact H.
    + injection H as <- <-. congruence.
Qed.

Lemma resolve_fuel_le n m impl w o w' :
  resolve n impl w = (o, w') -> o <> OutOfFuel -> n <= m ->
  resolve m impl w = (o, w').
Proof.
  intros H Ho Hle. induction Hle; [exact H|]. by apply resolve_fuel_S.
Qed.

(** ** The order of construction *)



(** ** Resolution does not depend on what the heap holds *)

Lemma mapM_relocated n pre
    (IH : forall impl e w, relocated pre e w ->
       (resolve n impl w).1 = shift_outcome (length pre) (resolve n impl e).1 /\
       relocated pre (resolve n impl e).2 (resolve n impl w).2)
    ds :
  forall e w, relocated pre e w ->
    (mapM (resolve n) ds w).1 =
      match (mapM (resolve n) ds e).1 with
      | Return xs => Return (map (Nat.add (length pre)) xs)
      | Throw err => Throw err
      | OutOfFuel => OutOfFuel
      end /\
    relocated pre (mapM (resolve n) ds e).2 (mapM (resolve n) ds w).2.
Proof.
  induction ds as [|d ds IHds]; intros e w R.
  - rewrite !mapM_nil. simpl. split; auto.
  - rewrite !mapM_cons.
    destruct (IH d e w R) as [Ho R1].
    destruct (resolve n d e) as [[x| |] e1], (resolve n d w) as [[x'| |] w1];
      simpl in Ho, R1; try discriminate; simpl; try solve [split; [congruence|assumption]].
    injection Ho as ->.
    destruct (IHds e1 w1 R1) as [Hos R2].
    destruct (mapM (resolve n) ds e1) as [[ys| |] e2],
             (mapM (resolve n) ds w1) as [[ys'| |] w2];
      simpl in Hos, R2; try discriminate; simpl; try solve [split; [congruence|assumption]].
    injection Hos as ->. split; auto.
Qed.

Lemma resolve_relocated n pre : forall impl e w,
  relocated pre e w ->
  (resolve n impl w).1 = shift_outcome (length pre) (resolve n impl e).1 /\
  relocated pre (resolve n impl e).2 (resolve n impl w).2.
Proof.
  induction n as [|n IH]; intros impl e w R.
  - rewrite !resolve_O. simpl. split; auto.
  - rewrite !resolve_S. pose proof R as [RP _]. rewrite RP.
    destruct (providers e !! name impl) as [p|]; [|simpl; split; auto].
    destruct (mapM_relocated n pre IH (Registry.deps p) e w R) as [Ho R1].
    destruct (mapM (resolve n) (Registry.deps p) e) as [[xs| |] e1],
             (mapM (resolve n) (Registry.deps p) w) as [[xs'| |] w1];
      simpl in Ho, R1; try discriminate; simpl; try solve [split; [congruence|assumption]].
    injection Ho as ->. destruct R1 as [RP1 RH1]. split.
    + f_equal. rewrite RH1, length_app, length_map. reflexivity.
    + split; simpl; [exact RP1|].
      rewrite RH1, map_app, <- app_assoc. reflexivity.
Qed.

Lemma resolve_in_any_world n impl w :
  (resolve n impl w).1 =
    shift_outcome (length (heap w)) (resolve_in (providers w) n impl).1 /\
  heap (resolve n impl w).2 =
    heap w ++ map (shift_obj (length (heap w)))
                  (heap (resolve_in (providers w) n impl).2).
Proof.
  assert (R : relocated (heap w) (mkWorld (providers w) [] ∅ ∅) w).
  { split; simpl; [reflexivity|by rewrite app_nil_r]. }
  destruct (resolve_relocated n (heap w) impl _ _ R) as [Ho [_ Hh]].
  split; [exact Ho|exact Hh].
Qed.

(** ** More on wired instances *)


Lemma built_root_in t h a r ls : built t h a r ls -> r ∈ ls.
Proof. destruct 1. apply elem_of_app. right. by apply list_elem_of_singleton. Qed.



(** ** The example of the specification *)

Example tree_world_construction :
  map constructor (heap (resolve 3 cRoot tree_world).2) = [cC; cA; cB; cRoot].
Proof. vm_compute. reflexivity. Qed.

Example tree_world_arguments :
  map args (heap (resolve 3 cRoot tree_world).2) = [[]; [0]; []; [1; 2]].
Proof. vm_compute. reflexivity. Qed.

Example zero_dependencies :
  resolve 1 cC tree_world =
  (Return 0, set_heap [mkObj cC []] tree_world).
Proof. vm_compute. reflexivity. Qed.

(** ** Properties of the registry *)


Lemma tree_world_resolvable : resolvable (providers tree_world) (name cRoot).
Proof.
  apply (resolve_Return_resolvable 3 cRoot tree_world
           (Nat.pred (length (heap (resolve 3 cRoot tree_world).2)))
           (resolve 3 cRoot tree_world).2).
  vm_compute. reflexivity.
Qed.


(** C7: for an identity whose dependency graph is fully registered and
    acyclic, [resolve] ends and returns an instance: the graph is no deeper
    than the table is large, and with a call stack deeper than the graph
    the call returns a location that holds an object of the registered
    constructor, fully wired (its arguments are, in order, wired instances
    of the declared dependencies), made of objects the call added to the
    heap; the table is as it was. *)
Theorem resolve_terminates impl w :
  resolvable (providers w) (name impl) ->
  depth_le (providers w) (name impl) (size (providers w) - 1) /\
  forall d n, depth_le (providers w) (name impl) d -> d < n ->
    exists r w' p xs added,
      resolve n impl w = (Return r, w') /\
      providers w' = providers w /\
      heap w' = heap w ++ added /\
      providers w !! name impl = Some p /\
      heap w' !! r = Some (mkObj (Registry.impl p) xs) /\
      built (providers w) (heap w') (name impl) r
        (seq (length (heap w)) (length added)).
Proof.
  intros Hres. split.
  - apply resolvable_depth. exact Hres.
  - intros d n Hd Hn.
    destruct (resolve_Return_at_depth (providers w) (name impl) d n impl w
                (proj1 Hres) Hd Hn eq_refl eq_refl) as (r & w' & E).
    destruct (resolve_built _ _ _ _ _ E) as (added & Hh & Hb).
    destruct (built_constructor _ _ _ _ _ Hb) as (p & xs & Hp & Hr & _).
    pose proof (resolve_extends n impl w) as (P1 & _). rewrite E in P1. simpl in P1.
    exists r, w', p, xs, added. auto 10.
Qed.

Lemma resolve_terminates_witness :
  depth_le (providers tree_world) (name cRoot) (size (providers tree_world) - 1) /\
  forall d n, depth_le (providers tree_world) (name cRoot) d -> d < n ->
    exists r w' p xs added,
      resolve n cRoot tree_world = (Return r, w') /\
      providers w' = providers tree_world /\
      heap w' = heap tree_world ++ added /\
      providers tree_world !! name cRoot = Some p /\
      heap w' !! r = Some (mkObj (Registry.impl p) xs) /\
      built (providers tree_world) (heap w') (name cRoot) r
        (seq (length (heap tree_world)) (length added)).
Proof.
  exact (resolve_terminates cRoot tree_world tree_world_resolvable).
Defined.

(** C3: when the identity is already in the table, [register] fails with
    the duplicate-registration error naming it and changes nothing: the
    table is the one before the call, and the entry of the first
    registration is still there. *)
Theorem register_duplicate impl w p :
  providers w !! name impl = Some p ->
  register impl w = (Throw (DuplicateRegistration (name impl)), w) /\
  providers (register impl w).2 = providers w /\
  providers (register impl w).2 !! name impl = Some p.
Proof.
  intros Hp. rewrite register_eq, Hp. simpl. auto.
Qed.

Lemma register_duplicate_witness :
  register cA tree_world = (Throw (DuplicateRegistration (name cA)), tree_world) /\
  providers (register cA tree_world).2 = providers tree_world /\
  providers (register cA tree_world).2 !! name cA =
    Some (Registry.mkProvider cA [cC]).
Proof.
  apply (register_duplicate cA tree_world (Registry.mkProvider cA [cC])).
  vm_compute. reflexivity.
Defined.

(** ** Missing entries *)

Lemma encounters_rtc t a k : encounters t a k -> rtc (dep_edge t) a k.
Proof.
  induction 1 as [a|a p before d after k Hp Hdeps _ _ IH].
  - apply rtc_refl.
  - eapply rtc_l; [|exact IH].
    eapply dep_edge_intro; [exact Hp|].
    rewrite Hdeps. apply elem_of_app. right. by left.
Qed.

Lemma mapM_Throw_at {A B} (f : A -> M B) (P : World -> Prop) e before x after :
  (forall y w, y ∈ before -> P w -> exists r w', f y w = (Return r, w') /\ P w') ->
  (forall w, P w -> exists w', f x w = (Throw e, w')) ->
  forall w, P w -> exists w', mapM f (before ++ x :: after) w = (Throw e, w').
Proof.
  intros Hbefore Hx.
  induction before as [|y before IH]; intros w Hw; simpl app; rewrite mapM_cons.
  - destruct (Hx w Hw) as (w' & ->). eauto.
  - destruct (Hbefore y w ltac:(left) Hw) as (r & w1 & -> & Hw1).
    destruct IH with (w := w1) as (w' & ->); [|exact Hw1|eauto].
    intros y' w0 Hin. apply Hbefore. by right.
Qed.

Lemma encounters_Throw t a k :
  encounters t a k -> t !! k = None ->
  exists n0, forall n, n0 <= n -> forall impl w,
    name impl = a -> providers w = t ->
    exists w', resolve n impl w = (Throw (UnregisteredType k), w').
Proof.
  intros Henc Hk.
  induction Henc as [a|a p before d after k Hp Hdeps Hbefore _ IH].
  - exists 1. intros n Hn impl w <- <-.
    destruct n as [|n]; [lia|]. rewrite resolve_S, Hk. eauto.
  - destruct (IH Hk) as (n0 & Hn0).
    exists (S (Nat.max n0 (size t))). intros n Hn impl w <- <-.
    destruct n as [|n]; [lia|]. rewrite resolve_S, Hp, Hdeps.
    destruct (mapM_Throw_at (resolve n) (fun w' => providers w' = providers w)
                (UnregisteredType k) before d after) with (w := w)
      as (w' & ->); [| |reflexivity|eauto].
    + intros y w0 Hin Hw0.
      rewrite Forall_forall in Hbefore. specialize (Hbefore y Hin).
      destruct (resolvable_Return _ _ n y w0 Hbefore ltac:(lia) eq_refl Hw0)
        as (r & w1 & E).
      exists r, w1. split; [exact E|].
      pose proof (resolve_extends n y w0) as (P1 & _). rewrite E in P1.
      simpl in P1. congruence.
    + intros w0 Hw0. apply Hn0; [lia|reflexivity|exact Hw0].
Qed.

(** C2: when the walk of [resolve] meets an identity that has no entry in
    the table (the requested one, or one met at any depth below it),
    [resolve] fails with the unregistered-type error naming exactly that
    identity (the error of no other identity is the same error), and no
    call stack however deep makes it return an instance; the table is as it
    was. *)
Theorem resolve_unregistered impl w k :
  encounters (providers w) (name impl) k ->
  providers w !! k = None ->
  (exists n0, forall n, n0 <= n -> exists w',
      resolve n impl w = (Throw (UnregisteredType k), w') /\
      providers w' = providers w) /\
  (forall k', UnregisteredType k' = UnregisteredType k -> k' = k) /\
  (forall n r w', resolve n impl w <> (Return r, w')).
Proof.
  intros Henc Hk. split; [|split].
  - destruct (encounters_Throw _ _ _ Henc Hk) as (n0 & Hn0).
    exists n0. intros n Hn.
    destruct (Hn0 n Hn impl w eq_refl eq_refl) as (w' & E).
    exists w'. split; [exact E|].
    pose proof (resolve_extends n impl w) as (P1 & _). by rewrite E in P1.
  - intros k'. apply UnregisteredType_inj.
  - intros n r w' E.
    destruct (resolve_Return_resolvable _ _ _ _ _ E) as [Hreg _].
    destruct (Hreg k (encounters_rtc _ _ _ Henc)) as [p Hp]. congruence.
Qed.

Example gap_world_nested :
  (resolve 4 cTop gap_world).1 = Throw (UnregisteredType "Missing").
Proof. vm_compute. reflexivity. Qed.

Example gap_world_root :
  (resolve 1 cMissing gap_world).1 = Throw (UnregisteredType "Missing").
Proof. vm_compute. reflexivity. Qed.

Lemma gap_world_encounters :
  encounters (providers gap_world) (name cTop) (name cMissing).
Proof.
  apply (encounters_dep _ _ (Registry.mkProvider cTop [cC; cMid]) [cC] cMid []);
    [vm_compute; reflexivity|reflexivity| |].
  - constructor; [|constructor].
    apply (resolve_Return_resolvable 1 cC gap_world 0
             (set_heap [mkObj cC []] gap_world)).
    vm_compute. reflexivity.
  - apply (encounters_dep _ _ (Registry.mkProvider cMid [cLow]) [] cLow []);
      [vm_compute; reflexivity|reflexivity|constructor|].
    apply (encounters_dep _ _ (Registry.mkProvider cLow [cMissing]) [] cMissing []);
      [vm_compute; reflexivity|reflexivity|constructor|].
    apply encounters_here.
Qed.

Lemma resolve_unregistered_witness :
  (exists n0, forall n, n0 <= n -> exists w',
      resolve n cTop gap_world = (Throw (UnregisteredType (name cMissing)), w') /\
      providers w' = providers gap_world) /\
  (forall k', UnregisteredType k' = UnregisteredType (name cMissing) ->
     k' = name cMissing) /\
  (forall n r w', resolve n cTop gap_world <> (Return r, w')).
Proof.
  apply (resolve_unregistered cTop gap_world (name cMissing) gap_world_encounters).
  vm_compute. reflexivity.
Defined.

(** ** Cycles *)

Lemma cycle_outcome impl w b n :
  rtc (dep_edge (providers w)) (name impl) b ->
  tc (dep_edge (providers w)) b b ->
  (resolve n impl w).1 = OutOfFuel \/
  exists k, (resolve n impl w).1 = Throw (UnregisteredType k) /\
    providers w !! k = None /\
    rtc (dep_edge (providers w)) (name impl) k.
Proof.
  intros Hreach Hcyc.
  destruct (resolve n impl w) as [[r|e|] w'] eqn:E; simpl.
  - destruct (resolve_Return_resolvable _ _ _ _ _ E) as [_ Hacyc].
    destruct (Hacyc b Hreach Hcyc).
  - destruct (resolve_Throw _ _ _ _ _ E) as (k & -> & Hk & Hrk). eauto.
  - by left.
Qed.

Lemma registered_cycle_OutOfFuel impl w b n :
  rtc (dep_edge (providers w)) (name impl) b ->
  tc (dep_edge (providers w)) b b ->
  fully_registered (providers w) (name impl) ->
  (resolve n impl w).1 = OutOfFuel.
Proof.
  intros Hreach Hcyc Hreg.
  destruct (cycle_outcome impl w b n Hreach Hcyc) as [H|(k & _ & Hk & Hrk)];
    [exact H|].
  destruct (Hreg k Hrk) as [p Hp]. congruence.
Qed.

Lemma closed_fully_registered t S a :
  closed_under_deps t S = true -> a ∈ S -> fully_registered t a.
Proof.
  intros Hclosed Ha b Hab.
  unfold closed_under_deps in Hclosed. rewrite forallb_forall in Hclosed.
  induction Hab as [x|x y z (p & d & Hp & Hin & <-) _ IH].
  - apply list_elem_of_In in Ha. specialize (Hclosed x Ha).
    destruct (t !! x); [eauto|discriminate].
  - apply IH.
    apply list_elem_of_In in Ha. specialize (Hclosed x Ha).
    rewrite Hp, forallb_forall in Hclosed.
    apply list_elem_of_In in Hin. specialize (Hclosed d Hin).
    by apply bool_decide_eq_true in Hclosed.
Qed.

Lemma cycle_world_edges :
  dep_edge (providers cycle_world) "A" "B" /\
  dep_edge (providers cycle_world) "B" "A".
Proof.
  split.
  - exists (Registry.mkProvider cycA [cycB]), cycB.
    split; [vm_compute; reflexivity|]. split; [by left|reflexivity].
  - exists (Registry.mkProvider cycB [cycA]), cycA.
    split; [vm_compute; reflexivity|]. split; [by left|reflexivity].
Qed.

Lemma cycle_world_cycle : tc (dep_edge (providers cycle_world)) "A" "A".
Proof.
  destruct cycle_world_edges as [Hab Hba].
  eapply tc_l; [exact Hab|]. by apply tc_once.
Qed.

Lemma cycle_world_registered : fully_registered (providers cycle_world) "A".
Proof.
  apply (closed_fully_registered _ ["A"; "B"]); [vm_compute; reflexivity|by left].
Qed.

(** C4, as the code has it: [resolve] does not look for cycles.  When a
    cycle can be reached from the requested identity, no call stack however
    deep makes [resolve] return an instance, and no error about the cycle
    is raised: the call either runs out of stack or fails with the
    unregistered-type error for a missing identity of the graph; and when
    every identity of the graph is registered it runs out of stack at every
    depth, that is, it recurses without bound. *)
Theorem resolve_cycle_unguarded impl w b :
  rtc (dep_edge (providers w)) (name impl) b ->
  tc (dep_edge (providers w)) b b ->
  forall n,
    ((resolve n impl w).1 = OutOfFuel \/
     exists k, (resolve n impl w).1 = Throw (UnregisteredType k) /\
       providers w !! k = None /\
       rtc (dep_edge (providers w)) (name impl) k) /\
    (fully_registered (providers w) (name impl) ->
     (resolve n impl w).1 = OutOfFuel).
Proof.
  intros Hreach Hcyc n. split.
  - by eapply cycle_outcome.
  - intros Hreg. by eapply registered_cycle_OutOfFuel.
Qed.

Lemma resolve_cycle_unguarded_witness :
  ((resolve 1000 cycA cycle_world).1 = OutOfFuel \/
   exists k, (resolve 1000 cycA cycle_world).1 = Throw (UnregisteredType k) /\
     providers cycle_world !! k = None /\
     rtc (dep_edge (providers cycle_world)) (name cycA) k) /\
  (fully_registered (providers cycle_world) (name cycA) ->
   (resolve 1000 cycA cycle_world).1 = OutOfFuel).
Proof.
  apply (resolve_cycle_unguarded cycA cycle_world "A").
  - apply rtc_refl.
  - exact cycle_world_cycle.
Defined.

(** C4 as stated fails on the code: with [A(B)] and [B(A)] registered,
    resolving [A] never fails with any error, at any depth of stack. *)
Lemma resolve_cycle_no_error :
  (forall n, (resolve n cycA cycle_world).1 = OutOfFuel) /\
  ~ (exists n e w', resolve n cycA cycle_world = (Throw e, w')).
Proof.
  assert (H : forall n, (resolve n cycA cycle_world).1 = OutOfFuel).
  { intros n.
    apply (registered_cycle_OutOfFuel cycA cycle_world "A" n).
    - apply rtc_refl.
    - exact cycle_world_cycle.
    - exact cycle_world_registered. }
  split; [exact H|].
  intros (n & e & w' & E). specialize (H n). rewrite E in H. discriminate.
Qed.

(** ** Fresh instances *)

Example diamond_world_heap :
  heap (resolve 3 cDiamond diamond_world).2 =
  [ mkObj cC []; mkObj cLeft [0]; mkObj cC []; mkObj cRight [2];
    mkObj cDiamond [1; 3] ].
Proof. vm_compute. reflexivity. Qed.

Example diamond_world_twice :
  (resolve 3 cDiamond diamond_world).1 = Return 4 /\
  (resolve 3 cDiamond (resolve 3 cDiamond diamond_world).2).1 = Return 9.
Proof. vm_compute. split; reflexivity. Qed.

(** C5: two consecutive [resolve] calls for the same identity return
    distinct objects, and nothing is reused within a call or across the two:
    listing every occurrence of an object in the two instances gives no
    object twice, none of them existed before the first call, and
    overwriting any object of one instance leaves the other instance as it
    is. *)
Theorem resolve_fresh impl w n m r1 w1 r2 w2 :
  resolve n impl w = (Return r1, w1) ->
  resolve m impl w1 = (Return r2, w2) ->
  r1 <> r2 /\
  exists ls1 ls2,
    built (providers w) (heap w2) (name impl) r1 ls1 /\
    built (providers w) (heap w2) (name impl) r2 ls2 /\
    NoDup (ls1 ++ ls2) /\
    Forall (fun l => length (heap w) <= l) (ls1 ++ ls2) /\
    (forall l o, l ∈ ls1 ->
       built (providers w) (<[l := o]> (heap w2)) (name impl) r2 ls2) /\
    (forall l o, l ∈ ls2 ->
       built (providers w) (<[l := o]> (heap w2)) (name impl) r1 ls1).
Proof.
  intros E1 E2.
  destruct (resolve_built _ _ _ _ _ E1) as (a1 & H1 & B1).
  destruct (resolve_built _ _ _ _ _ E2) as (a2 & H2 & B2).
  pose proof (resolve_extends n impl w) as (P1 & _). rewrite E1 in P1. simpl in P1.
  rewrite P1 in B2.
  assert (B1' : built (providers w) (heap w2) (name impl) r1
                  (seq (length (heap w)) (length a1))).
  { rewrite H2. by apply built_app. }
  assert (Hnd : NoDup (seq (length (heap w)) (length a1) ++
                       seq (length (heap w1)) (length a2))).
  { rewrite H1, length_app, <- seq_app. apply NoDup_seq. }
  pose proof Hnd as Hnd'. apply NoDup_app in Hnd' as (_ & Hdis & _).
  split.
  - intros ->. apply (Hdis r2); by eapply built_root_in.
  - eexists _, _. split; [exact B1'|]. split; [exact B2|].
    split; [exact Hnd|]. split; [|split].
    + rewrite H1, length_app, <- seq_app. apply Forall_forall.
      intros l Hl. apply elem_of_seq in Hl. lia.
    + intros l o Hl. eapply (proj1 (built_local _ _ _)); [exact B2|].
      intros l' Hl'. apply list_lookup_insert_ne. intros ->. by apply (Hdis l').
    + intros l o Hl. eapply (proj1 (built_local _ _ _)); [exact B1'|].
      intros l' Hl'. apply list_lookup_insert_ne. intros ->. by apply (Hdis l').
Qed.

Lemma resolve_fresh_witness :
  4 <> 9 /\
  exists ls1 ls2,
    built (providers diamond_world)
      (heap (resolve 3 cDiamond (resolve 3 cDiamond diamond_world).2).2)
      (name cDiamond) 4 ls1 /\
    built (providers diamond_world)
      (heap (resolve 3 cDiamond (resolve 3 cDiamond diamond_world).2).2)
      (name cDiamond) 9 ls2 /\
    NoDup (ls1 ++ ls2) /\
    Forall (fun l => length (heap diamond_world) <= l) (ls1 ++ ls2) /\
    (forall l o, l ∈ ls1 ->
       built (providers diamond_world)
         (<[l := o]> (heap (resolve 3 cDiamond (resolve 3 cDiamond diamond_world).2).2))
         (name cDiamond) 9 ls2) /\
    (forall l o, l ∈ ls2 ->
       built (providers diamond_world)
         (<[l := o]> (heap (resolve 3 cDiamond (resolve 3 cDiamond diamond_world).2).2))
         (name cDiamond) 4 ls1).
Proof.
  apply (resolve_fresh cDiamond diamond_world 3 3 4
           (resolve 3 cDiamond diamond_world).2 9
           (resolve 3 cDiamond (resolve 3 cDiamond diamond_world).2).2).
  - vm_compute. reflexivity.
  - vm_compute. reflexivity.
Defined.

(** ** The table *)

(** C6: [resolve] never changes the table, whatever its outcome, and what
    it does is a function of the table alone: its outcome and the objects it
    adds are those of a run in a process holding nothing but the table,
    placed after the objects that exist already.  [register] leaves every
    entry of the table in place: the table after it is the table before, or
    the table before with an entry added under a name that had none.  The
    other operations do not touch the table. *)
Theorem table_changes_only_by_register :
  (forall n impl w, providers (resolve n impl w).2 = providers w) /\
  (forall n impl w,
     (resolve n impl w).1 =
       shift_outcome (length (heap w)) (resolve_in (providers w) n impl).1 /\
     heap (resolve n impl w).2 =
       heap w ++ map (shift_obj (length (heap w)))
                     (heap (resolve_in (providers w) n impl).2)) /\
  (forall impl w,
     providers w ⊆ providers (register impl w).2 /\
     (providers (register impl w).2 = providers w \/
      providers w !! name impl = None /\
      exists ds, providers (register impl w).2 =
                 <[name impl := Registry.mkProvider impl ds]> (providers w))) /\
  (forall schema target w, providers (Schema schema target w).2 = providers w) /\
  (forall target w, providers (getSchema target w).2 = providers w).
Proof.
  split; [|split; [|split; [|split]]].
  - intros n impl w. apply resolve_extends.
  - intros n impl w. apply resolve_in_any_world.
  - intros impl w. rewrite register_eq.
    destruct (providers w !! name impl) as [p|] eqn:Hp; simpl.
    + split; [reflexivity|by left].
    + split; [by apply insert_subseteq|].
      right. split; [reflexivity|eauto].
  - reflexivity.
  - reflexivity.
Qed.

(** ** The schema annotations *)

(** C8: after [Schema(v1)] and then [Schema(v2)] on the same class,
    [getSchema] on an instance of that class returns [v2]; the second call
    is accepted like the first. *)
Theorem schema_last_write_wins target v1 v2 xs w :
  (Schema v1 target w).1 = Return tt /\
  (Schema v2 target (Schema v1 target w).2).1 = Return tt /\
  (getSchema (mkObj target xs) (Schema v2 target (Schema v1 target w).2).2).1 =
    Return (Some v2).
Proof.
  split; [reflexivity|]. split; [reflexivity|].
  destruct target as [r nm p].
  unfold getSchema, gets, Schema, modify, OrdinaryDefineOwnMetadata. simpl.
  by rewrite lookup_insert_eq.
Qed.

Lemma OrdinaryGetMetadata_None {V} (store : gmap nat V) O :
  Forall (fun c => store !! ref c = None) (prototype_chain O) ->
  OrdinaryGetMetadata store O = None.
Proof.
  revert O. fix IH 1. intros [r nm parent] H. simpl in *.
  apply Forall_cons in H as [Hr H]. simpl in Hr. rewrite Hr.
  destruct parent as [P|]; [|reflexivity]. apply IH. exact H.
Qed.

Lemma attach_all_schemas calls : forall w r,
  r ∉ map (fun call => ref call.2) calls ->
  schemas (attach_all calls w).2 !! r = schemas w !! r.
Proof.
  induction calls as [|[schema target] calls IH]; intros w r Hr.
  - reflexivity.
  - simpl in Hr. apply not_elem_of_cons in Hr as [Hne Hr].
    change ((attach_all ((schema, target) :: calls) w).2)
      with ((attach_all calls (Schema schema target w).2).2).
    rewrite IH by exact Hr. simpl. unfold OrdinaryDefineOwnMetadata.
    by rewrite lookup_insert_ne.
Qed.

(** The value [Reflect.getMetadata] finds is the one defined on the nearest
    class of the prototype chain that has one. *)
Lemma OrdinaryGetMetadata_nearest {V} (store : gmap nat V) v c after :
  forall before O,
    prototype_chain O = before ++ c :: after ->
    Forall (fun b => store !! ref b = None) before ->
    store !! ref c = Some v ->
    OrdinaryGetMetadata store O = Some v.
Proof.
  induction before as [|b before IH]; intros [r nm parent] Hchain Hbefore Hc.
  - simpl in Hchain. injection Hchain as <- _. simpl in Hc. simpl. by rewrite Hc.
  - simpl in Hchain. injection Hchain as <- Hrest.
    apply Forall_cons in Hbefore as [Hb Hbefore]. simpl in Hb. simpl. rewrite Hb.
    destruct parent as [P|].
    + by apply IH.
    + by destruct before.
Qed.

Lemma attach_all_app l1 : forall l2 w,
  (attach_all (l1 ++ l2) w).2 = (attach_all l2 (attach_all l1 w).2).2.
Proof.
  induction l1 as [|[schema target] l1 IH]; intros l2 w.
  - reflexivity.
  - change ((attach_all (l1 ++ l2) (Schema schema target w).2).2 =
            (attach_all l2 (attach_all l1 (Schema schema target w).2).2).2).
    apply IH.
Qed.

(** The value a class has after a history of calls is the one of the last
    call made on it. *)
Lemma attach_all_last earlier v c later w :
  ref c ∉ map (fun call : ZodSchema * Constructor => ref call.2) later ->
  schemas (attach_all (earlier ++ (v, c) :: later) w).2 !! ref c = Some v.
Proof.
  intros Hlater. rewrite attach_all_app.
  change ((attach_all ((v, c) :: later) (attach_all earlier w).2).2)
    with ((attach_all later (Schema v c (attach_all earlier w).2).2).2).
  rewrite attach_all_schemas by exact Hlater.
  simpl. unfold OrdinaryDefineOwnMetadata. apply lookup_insert_eq.
Qed.

(** C9, as the code has it: [getSchema] reads the annotation of the class
    or, when the class has none of its own, of the nearest class it
    inherits from.  After any history of [Schema] calls: it returns
    "absent" (not a default, not a failure) for every class such that
    [Schema] was never called on it nor on a class it extends; when
    [Schema] was called on a class [c] of the prototype chain and on none of
    the classes before [c] in the chain, it returns the value of the last
    call on [c] (for a class with no value of its own, the value of the
    nearest class it extends that has one); and in every case it is a read
    that changes no state. *)
Theorem getSchema_absent calls target xs w0 :
  schemas w0 = ∅ ->
  (Forall (fun c => ref c ∉ map (fun call => ref call.2) calls)
     (prototype_chain target) ->
   getSchema (mkObj target xs) (attach_all calls w0).2 =
     (Return None, (attach_all calls w0).2)) /\
  (forall before c after earlier v later,
     prototype_chain target = before ++ c :: after ->
     Forall (fun b => ref b ∉ map (fun call => ref call.2) calls) before ->
     calls = earlier ++ (v, c) :: later ->
     ref c ∉ map (fun call : ZodSchema * Constructor => ref call.2) later ->
     getSchema (mkObj target xs) (attach_all calls w0).2 =
       (Return (Some v), (attach_all calls w0).2)) /\
  (forall o w, (getSchema o w).2 = w).
Proof.
  intros Hempty.
  assert (Hnone : forall b, ref b ∉ map (fun call => ref call.2) calls ->
                    schemas (attach_all calls w0).2 !! ref b = None).
  { intros b Hb. rewrite attach_all_schemas by exact Hb.
    rewrite Hempty. apply lookup_empty. }
  split; [|split; [|reflexivity]].
  - intros Hnever. unfold getSchema, gets. simpl. f_equal. f_equal.
    apply OrdinaryGetMetadata_None.
    eapply Forall_impl; [exact Hnever|]. intros b Hb. by apply Hnone.
  - intros before c after earlier v later Hchain Hbefore -> Hlater.
    unfold getSchema, gets. simpl. f_equal. f_equal.
    apply (OrdinaryGetMetadata_nearest _ v c after before target Hchain).
    + eapply Forall_impl; [exact Hbefore|]. intros b Hb. by apply Hnone.
    + by apply attach_all_last.
Qed.

Lemma getSchema_absent_witness :
  getSchema (mkObj cPlainChild []) (attach_all [(Zod 1, cBase)] initial).2 =
    (Return None, (attach_all [(Zod 1, cBase)] initial).2) /\
  getSchema (mkObj cDerived []) (attach_all [(Zod 1, cBase)] initial).2 =
    (Return (Some (Zod 1)), (attach_all [(Zod 1, cBase)] initial).2) /\
  (forall o w, (getSchema o w).2 = w).
Proof.
  assert (Hnot : forall r, r <> 41 ->
            r ∉ map (fun call : ZodSchema * Constructor => ref call.2) [(Zod 1, cBase)]).
  { intros r Hr H. simpl in H.
    apply elem_of_cons in H as [H|H]; [congruence|by apply elem_of_nil in H]. }
  split; [|split].
  - apply (getSchema_absent [(Zod 1, cBase)] cPlainChild [] initial eq_refl).
    repeat constructor; apply Hnot; simpl; lia.
  - apply (proj1 (proj2 (getSchema_absent [(Zod 1, cBase)] cDerived [] initial eq_refl))
             [cDerived] cBase [] [] (Zod 1) []).
    + reflexivity.
    + repeat constructor. apply Hnot. simpl. lia.
    + reflexivity.
    + apply not_elem_of_nil.
  - apply (getSchema_absent [(Zod 1, cBase)] cPlain [] initial eq_refl).
Defined.

(** C9 as stated fails on the code: [Schema] is called on [BaseController]
    only, never on [DerivedController], which extends it; [getSchema] on an
    instance of [DerivedController] returns the schema of
    [BaseController]. *)
Lemma getSchema_inherited :
  (ref cDerived ∉ map (fun call : ZodSchema * Constructor => ref call.2) [(Zod 1, cBase)]) /\
  (getSchema (mkObj cDerived []) (attach_all [(Zod 1, cBase)] initial).2).1 =
    Return (Some (Zod 1)) /\
  (getSchema (mkObj cDerived []) (attach_all [(Zod 1, cBase)] initial).2).1 <>
    Return None.
Proof.
  split; [|split; [vm_compute; reflexivity|vm_compute; discriminate]].
  vm_compute. intros H.
  apply elem_of_cons in H as [H|H]; [discriminate|by apply elem_of_nil in H].
Qed.

(** ** Identity is the name *)

(** C10: the key of the table is the name of the class, not the class.  For
    two distinct classes [C] and [D] of the same name, with the name free
    and the dependencies of [C] resolvable: registering [C] succeeds; from
    then on resolving [D] is resolving [C], it returns an instance made from
    [C], which is not [D]; and registering [D] fails as a duplicate, leaving
    everything as it was. *)
Theorem identity_is_name C D w :
  ref C <> ref D ->
  name C = name D ->
  providers w !! name C = None ->
  resolvable (providers (register C w).2) (name C) ->
  (register C w).1 = Return tt /\
  (forall n, resolve n D (register C w).2 = resolve n C (register C w).2) /\
  (forall n, size (providers (register C w).2) <= n ->
     exists r w2 xs,
       resolve n D (register C w).2 = (Return r, w2) /\
       heap w2 !! r = Some (mkObj C xs) /\
       ref (constructor (mkObj C xs)) <> ref D) /\
  register D (register C w).2 =
    (Throw (DuplicateRegistration (name D)), (register C w).2).
Proof.
  intros Hdistinct Hname Hfree Hres.
  assert (Hentry : exists ds,
            providers (register C w).2 !! name C = Some (Registry.mkProvider C ds)).
  { rewrite register_eq, Hfree. simpl. eexists. apply lookup_insert_eq. }
  destruct Hentry as (ds & Hentry).
  split; [by rewrite register_eq, Hfree|].
  split; [intros n; by apply resolve_name|].
  split.
  - intros n Hn.
    destruct (resolvable_Return _ _ n D _ Hres Hn (eq_sym Hname) eq_refl)
      as (r & w2 & E).
    destruct (resolve_built _ _ _ _ _ E) as (added & _ & Hb).
    destruct (built_constructor _ _ _ _ _ Hb) as (p & xs & Hp & Hr & _).
    rewrite <- Hname, Hentry in Hp. injection Hp as <-. simpl in Hr.
    exists r, w2, xs. split; [exact E|]. split; [exact Hr|exact Hdistinct].
  - rewrite (register_eq D), <- Hname, Hentry, Hname. reflexivity.
Qed.

Example same_name_resolve :
  resolve 1 cImpostor (register cService initial).2 =
  (Return 0, set_heap [mkObj cService []] (register cService initial).2).
Proof. vm_compute. reflexivity. Qed.

Lemma identity_is_name_witness :
  (register cService initial).1 = Return tt /\
  (forall n, resolve n cImpostor (register cService initial).2 =
             resolve n cService (register cService initial).2) /\
  (forall n, size (providers (register cService initial).2) <= n ->
     exists r w2 xs,
       resolve n cImpostor (register cService initial).2 = (Return r, w2) /\
       heap w2 !! r = Some (mkObj cService xs) /\
       ref (constructor (mkObj cService xs)) <> ref cImpostor) /\
  register cImpostor (register cService initial).2 =
    (Throw (DuplicateRegistration (name cImpostor)), (register cService initial).2).
Proof.
  apply (identity_is_name cService cImpostor initial).
  - vm_compute. lia.
  - reflexivity.
  - vm_compute. reflexivity.
  - apply (resolve_Return_resolvable 1 cService (register cService initial).2 0
             (set_heap [mkObj cService []] (register cService initial).2)).
    vm_compute. reflexivity.
Defined.

(** ** More on [register] *)

(** X1: registering a class whose name is free returns normally; the
    table then holds, under that name, the class with the dependency list
    read from its ['design:paramtypes'] (none recorded: no dependencies);
    every other name is as before, the table has one entry more, and the
    heap and the metadata are untouched. *)
Theorem register_fresh impl w :
  providers w !! name impl = None ->
  (register impl w).1 = Return tt /\
  providers (register impl w).2 !! name impl =
    Some (Registry.mkProvider impl
            (default [] (OrdinaryGetMetadata (paramtypes w) impl))) /\
  (forall k, k <> name impl ->
     providers (register impl w).2 !! k = providers w !! k) /\
  size (providers (register impl w).2) = S (size (providers w)) /\
  heap (register impl w).2 = heap w /\
  paramtypes (register impl w).2 = paramtypes w /\
  schemas (register impl w).2 = schemas w.
Proof.
  intros Hfree. rewrite register_eq, Hfree. simpl.
  split; [reflexivity|]. split; [apply lookup_insert_eq|].
  split; [intros k Hk; by apply lookup_insert_ne|].
  split; [by apply map_size_insert_None|]. auto.
Qed.

Lemma register_fresh_witness :
  (register cRoot initial).1 = Return tt /\
  providers (register cRoot initial).2 !! name cRoot =
    Some (Registry.mkProvider cRoot
            (default [] (OrdinaryGetMetadata (paramtypes initial) cRoot))) /\
  (forall k, k <> name cRoot ->
     providers (register cRoot initial).2 !! k = providers initial !! k) /\
  size (providers (register cRoot initial).2) = S (size (providers initial)) /\
  heap (register cRoot initial).2 = heap initial /\
  paramtypes (register cRoot initial).2 = paramtypes initial /\
  schemas (register cRoot initial).2 = schemas initial.
Proof.
  apply (register_fresh cRoot initial). vm_compute. reflexivity.
Defined.

(** X2: the dependency list [register] records for a class is the
    ['design:paramtypes'] of the nearest class of its prototype chain that
    has one: a class with no metadata of its own is registered with the
    dependencies declared by the class it extends. *)
Theorem register_inherits_paramtypes impl w before c after ds :
  providers w !! name impl = None ->
  prototype_chain impl = before ++ c :: after ->
  Forall (fun b => paramtypes w !! ref b = None) before ->
  paramtypes w !! ref c = Some ds ->
  providers (register impl w).2 !! name impl = Some (Registry.mkProvider impl ds).
Proof.
  intros Hfree Hchain Hbefore Hc.
  rewrite register_eq, Hfree. simpl. rewrite lookup_insert_eq.
  by rewrite (OrdinaryGetMetadata_nearest _ ds c after before impl).
Qed.

Lemma register_inherits_paramtypes_witness :
  providers (register cDerived (design_paramtypes [cC] cBase initial).2).2
    !! name cDerived
  = Some (Registry.mkProvider cDerived [cC]).
Proof.
  apply (register_inherits_paramtypes cDerived
           (design_paramtypes [cC] cBase initial).2 [cDerived] cBase [] [cC]).
  - vm_compute. reflexivity.
  - reflexivity.
  - repeat constructor.
  - vm_compute. reflexivity.
Defined.

(** X3: registrations under different names do not interfere: done in
    either order they have the same outcomes and leave the same state. *)
Theorem register_commute C D w :
  name C <> name D ->
  (register D (register C w).2).2 = (register C (register D w).2).2 /\
  (register C (register D w).2).1 = (register C w).1 /\
  (register D (register C w).2).1 = (register D w).1.
Proof.
  intros Hne. rewrite !register_eq.
  destruct (providers w !! name C) as [pc|] eqn:HC,
           (providers w !! name D) as [pd|] eqn:HD; simpl;
    rewrite ?HC, ?HD, ?lookup_insert_ne, ?HC, ?HD by congruence; simpl;
    try (split; [reflexivity|split; reflexivity]).
  split; [|split; reflexivity].
  unfold set_providers. simpl. f_equal. apply insert_insert_ne. congruence.
Qed.

Lemma register_commute_witness :
  (register cB (register cA initial).2).2 = (register cA (register cB initial).2).2 /\
  (register cA (register cB initial).2).1 = (register cA initial).1 /\
  (register cB (register cA initial).2).1 = (register cB initial).1.
Proof.
  apply (register_commute cA cB initial). vm_compute. discriminate.
Defined.

(** ** More on [resolve] *)

Lemma mapM_Throw_split {A B} (f : A -> M B)
    (f_extends : forall x w, extends w (f x w).2) xs :
  forall w e w',
    mapM f xs w = (Throw e, w') ->
    exists before x after w0,
      xs = before ++ x :: after /\
      extends w w0 /\
      f x w0 = (Throw e, w') /\
      Forall (fun y => exists w1 r w2, extends w w1 /\ f y w1 = (Return r, w2)) before.
Proof.
  induction xs as [|x xs IHxs]; intros w e w' H.
  - rewrite mapM_nil in H. discriminate.
  - rewrite mapM_cons in H. pose proof (f_extends x w) as Hx.
    destruct (f x w) as [[y| |] w1] eqn:E1; simpl in Hx.
    + destruct (mapM f xs w1) as [[ys| |] w2] eqn:E2; try discriminate.
      injection H as <- <-.
      destruct (IHxs _ _ _ E2) as (before & x' & after & w0 & -> & Hext & Hf & Hbefore).
      exists (x :: before), x', after, w0.
      split; [reflexivity|]. split; [by eapply extends_trans|]. split; [exact Hf|].
      constructor.
      * exists w, y, w1. split; [apply extends_refl|exact E1].
      * eapply Forall_impl; [exact Hbefore|].
        intros z (w3 & r & w4 & Hext3 & Hz). exists w3, r, w4.
        split; [by eapply extends_trans|exact Hz].
    + injection H as <- <-. exists [], x, xs, w.
      split; [reflexivity|]. split; [apply extends_refl|]. split; [exact E1|constructor].
    + discriminate.
Qed.

Lemma resolve_Throw_encounters n : forall impl w e w',
  resolve n impl w = (Throw e, w') ->
  exists k, e = UnregisteredType k /\ providers w !! k = None /\
    encounters (providers w) (name impl) k.
Proof.
  induction n as [|n IH]; intros impl w e w' H.
  - rewrite resolve_O in H. discriminate.
  - rewrite resolve_S in H.
    destruct (providers w !! name impl) as [p|] eqn:Ep.
    + destruct (mapM (resolve n) (Registry.deps p) w) as [[xs| |] w1] eqn:E;
        try discriminate.
      injection H as <- <-.
      destruct (mapM_Throw_split _ (resolve_extends n) _ _ _ _ E)
        as (before & d & after & w0 & Hdeps & (P0 & _) & Hd & Hbefore).
      destruct (IH _ _ _ _ Hd) as (k & -> & Hk & Henc).
      rewrite P0 in Hk, Henc.
      exists k. split; [done|]. split; [done|].
      eapply encounters_dep; [exact Ep|exact Hdeps| |exact Henc].
      eapply Forall_impl; [exact Hbefore|].
      intros d' (w3 & r & w4 & (P3 & _) & Hd').
      rewrite <- P3. by eapply resolve_Return_resolvable.
    + injection H as <- <-. exists (name impl).
      split; [done|]. split; [done|]. apply encounters_here.
Qed.

(** X4: when a [resolve] call ends with its own [throw] (running out of
    stack on a cycle is not an error of the model but [OutOfFuel], and
    constructors are taken not to throw), the error is the unregistered-type
    error of an identity that has no entry in the table and that the walk
    met: the requested identity, or one reached through dependencies whose
    earlier siblings all resolved.  In particular the identity named is in
    the dependency graph of the request. *)
Theorem resolve_throws_only_unregistered n impl w e w' :
  resolve n impl w = (Throw e, w') ->
  exists k, e = UnregisteredType k /\
    providers w !! k = None /\
    encounters (providers w) (name impl) k /\
    rtc (dep_edge (providers w)) (name impl) k.
Proof.
  intros H.
  destruct (resolve_Throw_encounters _ _ _ _ _ H) as (k & He & Hk & Henc).
  exists k. split; [exact He|]. split; [exact Hk|]. split; [exact Henc|].
  by apply encounters_rtc.
Qed.

Lemma resolve_throws_only_unregistered_witness :
  exists k, UnregisteredType "Missing" = UnregisteredType k /\
    providers gap_world !! k = None /\
    encounters (providers gap_world) (name cTop) k /\
    rtc (dep_edge (providers gap_world)) (name cTop) k.
Proof.
  apply (resolve_throws_only_unregistered 4 cTop gap_world
           (UnregisteredType "Missing") (resolve 4 cTop gap_world).2).
  vm_compute. reflexivity.
Defined.

(** X5: [resolve] returns an instance, for some depth of stack, exactly
    when the dependency graph of the request is fully registered and
    acyclic; and whatever it returns is the location of a fully wired
    instance of the registered constructor. *)
Theorem resolve_returns_iff_resolvable impl w :
  ((exists n r w', resolve n impl w = (Return r, w')) <->
   resolvable (providers w) (name impl)) /\
  (forall n r w', resolve n impl w = (Return r, w') ->
     exists ls, built (providers w) (heap w') (name impl) r ls).
Proof.
  split; [split|].
  - intros (n & r & w' & E). by eapply resolve_Return_resolvable.
  - intros Hres.
    destruct (resolvable_Return _ _ (size (providers w)) impl w Hres
                ltac:(reflexivity) eq_refl eq_refl) as (r & w' & E).
    eauto.
  - intros n r w' E. destruct (resolve_built _ _ _ _ _ E) as (added & _ & Hb). eauto.
Qed.

(** X6: whatever its outcome, [resolve] only adds objects: every object
    that existed before the call is still at its place, unchanged, and the
    table and the metadata are as they were.  Objects built before a failure
    stay in the heap. *)
Theorem resolve_only_adds n impl w :
  extends w (resolve n impl w).2 /\
  (forall l o, heap w !! l = Some o -> heap (resolve n impl w).2 !! l = Some o).
Proof.
  pose proof (resolve_extends n impl w) as H. split; [exact H|].
  destruct H as (_ & _ & _ & added & ->). intros l o Hl.
  by apply lookup_app_l_Some.
Qed.

(** X7: the outcome of a call that ended does not depend on how deep the
    stack may go: with any deeper bound the call returns or throws the
    same, and leaves the same state. *)
Theorem resolve_outcome_stable n m impl w o w' :
  resolve n impl w = (o, w') -> o <> OutOfFuel -> n <= m ->
  resolve m impl w = (o, w').
Proof. apply resolve_fuel_le. Qed.

Lemma resolve_outcome_stable_witness :
  resolve 50 cRoot tree_world = (Return 3, (resolve 3 cRoot tree_world).2).
Proof.
  apply (resolve_outcome_stable 3 50 cRoot tree_world (Return 3)
           (resolve 3 cRoot tree_world).2).
  - vm_compute. reflexivity.
  - discriminate.
  - lia.
Defined.

(** X8: a class registered under a free name, with no ['design:paramtypes']
    on it or on a class it extends, resolves at once to a new object of
    that class built with no arguments, placed after the objects that
    exist. *)
Theorem register_then_resolve C w n :
  providers w !! name C = None ->
  Forall (fun b => paramtypes w !! ref b = None) (prototype_chain C) ->
  resolve (S n) C (register C w).2 =
  (Return (length (heap w)),
   set_heap (heap w ++ [mkObj C []]) (register C w).2).
Proof.
  intros Hfree Hnone.
  rewrite resolve_S, register_eq, Hfree. simpl. rewrite lookup_insert_eq.
  rewrite (OrdinaryGetMetadata_None _ _ Hnone). reflexivity.
Qed.

Lemma register_then_resolve_witness :
  resolve 1 cService (register cService initial).2 =
  (Return (length (heap initial)),
   set_heap (heap initial ++ [mkObj cService []]) (register cService initial).2).
Proof.
  apply (register_then_resolve cService initial 0).
  - vm_compute. reflexivity.
  - repeat constructor.
Defined.

Lemma mapM_resolve_table_grows n t2
    (IH : forall impl w r w',
       providers w ⊆ t2 -> resolve n impl w = (Return r, w') ->
       resolve n impl (set_providers t2 w) = (Return r, set_providers t2 w'))
    ds :
  forall w xs w',
    providers w ⊆ t2 -> mapM (resolve n) ds w = (Return xs, w') ->
    mapM (resolve n) ds (set_providers t2 w) = (Return xs, set_providers t2 w').
Proof.
  induction ds as [|d ds IHds]; intros w xs w' Hsub H.
  - rewrite mapM_nil in *. by injection H as <- <-.
  - rewrite mapM_cons in *.
    destruct (resolve n d w) as [[x| |] w1] eqn:E1; try discriminate.
    destruct (mapM (resolve n) ds w1) as [[ys| |] w2] eqn:E2; try discriminate.
    injection H as <- <-.
    rewrite (IH _ _ _ _ Hsub E1).
    pose proof (resolve_extends n d w) as (P1 & _). rewrite E1 in P1. simpl in P1.
    rewrite (IHds w1 ys w2); [reflexivity| |exact E2]. by rewrite P1.
Qed.

Lemma resolve_table_grows n t2 : forall impl w r w',
  providers w ⊆ t2 -> resolve n impl w = (Return r, w') ->
  resolve n impl (set_providers t2 w) = (Return r, set_providers t2 w').
Proof.
  induction n as [|n IH]; intros impl w r w' Hsub H.
  - rewrite resolve_O in H. discriminate.
  - rewrite resolve_S in *.
    destruct (providers w !! name impl) as [p|] eqn:Hp; [|discriminate].
    simpl. rewrite (lookup_weaken _ _ _ _ Hp Hsub).
    destruct (mapM (resolve n) (Registry.deps p) w) as [[xs| |] w1] eqn:E;
      try discriminate.
    injection H as <- <-.
    rewrite (mapM_resolve_table_grows n t2 IH _ _ _ _ Hsub E). reflexivity.
Qed.

(** X9: registration never breaks a resolution that works: if [resolve]
    returns an instance, then after any further [register] call (whether it
    adds an entry or fails as a duplicate) the same [resolve] call returns
    the same object and builds the same heap. *)
Theorem resolve_survives_register n impl w r w' D :
  resolve n impl w = (Return r, w') ->
  resolve n impl (register D w).2 =
  (Return r, set_providers (providers (register D w).2) w').
Proof.
  intros H.
  assert (Hsub : providers w ⊆ providers (register D w).2).
  { rewrite register_eq. destruct (providers w !! name D) eqn:HD; simpl;
      [reflexivity|by apply insert_subseteq]. }
  assert (Hw : (register D w).2 = set_providers (providers (register D w).2) w).
  { rewrite register_eq. destruct (providers w !! name D); [|reflexivity].
    simpl. by destruct w. }
  rewrite Hw at 1. by apply resolve_table_grows.
Qed.

Lemma resolve_survives_register_witness :
  resolve 3 cRoot (register cService tree_world).2 =
  (Return 3,
   set_providers (providers (register cService tree_world).2)
     (resolve 3 cRoot tree_world).2).
Proof.
  apply (resolve_survives_register 3 cRoot tree_world 3
           (resolve 3 cRoot tree_world).2 cService).
  vm_compute. reflexivity.
Defined.

(** ** More on the schema annotations *)

(** X10: [getSchema] returns the schema attached to the nearest class of
    the prototype chain that has one: an instance of a class without a
    schema of its own gets the schema of the class it extends, and a schema
    on the class itself hides those further up. *)
Theorem getSchema_nearest target xs w before c after v :
  prototype_chain target = before ++ c :: after ->
  Forall (fun b => schemas w !! ref b = None) before ->
  schemas w !! ref c = Some v ->
  getSchema (mkObj target xs) w = (Return (Some v), w).
Proof.
  intros Hchain Hbefore Hc. unfold getSchema, gets. simpl.
  by rewrite (OrdinaryGetMetadata_nearest _ v c after before target).
Qed.

Lemma getSchema_nearest_witness :
  getSchema (mkObj cDerived []) (Schema (Zod 7) cBase initial).2 =
  (Return (Some (Zod 7)), (Schema (Zod 7) cBase initial).2).
Proof.
  apply (getSchema_nearest cDerived [] (Schema (Zod 7) cBase initial).2
           [cDerived] cBase [] (Zod 7)).
  - reflexivity.
  - repeat constructor.
  - vm_compute. reflexivity.
Defined.

Lemma OrdinaryGetMetadata_insert_other {V} (store : gmap nat V) r v O :
  Forall (fun b => ref b <> r) (prototype_chain O) ->
  OrdinaryGetMetadata (<[r := v]> store) O = OrdinaryGetMetadata store O.
Proof.
  revert O. fix IH 1. intros [r' nm parent] H. simpl in *.
  apply Forall_cons in H as [Hr H]. simpl in Hr.
  rewrite lookup_insert_ne by congruence.
  destruct (store !! r'); [reflexivity|].
  destruct parent as [P|]; [|reflexivity]. apply IH. exact H.
Qed.

(** X11: [Schema(schema)(target)] changes what [getSchema] returns only
    for [target] and the classes that extend it: for an instance of a class
    whose prototype chain does not pass through [target], [getSchema]
    returns what it returned before. *)
Theorem Schema_frame schema target other xs w :
  Forall (fun b => ref b <> ref target) (prototype_chain other) ->
  (getSchema (mkObj other xs) (Schema schema target w).2).1 =
  (getSchema (mkObj other xs) w).1.
Proof.
  intros Hother. unfold getSchema, gets, Schema, modify. simpl. f_equal.
  unfold OrdinaryDefineOwnMetadata. by apply OrdinaryGetMetadata_insert_other.
Qed.

Lemma Schema_frame_witness :
  (getSchema (mkObj cBase []) (Schema (Zod 9) cDerived (Schema (Zod 7) cBase initial).2).2).1 =
  (getSchema (mkObj cBase []) (Schema (Zod 7) cBase initial).2).1.
Proof.
  apply (Schema_frame (Zod 9) cDerived cBase [] (Schema (Zod 7) cBase initial).2).
  repeat constructor. vm_compute. discriminate.
Defined.

(** X12: the two decorators do not interfere: [Schema] and [Injectable] on
    any classes, applied in either order, have the same outcomes and leave
    the same state. *)
Theorem Schema_Injectable_commute schema target C w :
  (Injectable C (Schema schema target w).2).2 =
    (Schema schema target (Injectable C w).2).2 /\
  (Injectable C (Schema schema target w).2).1 = (Injectable C w).1 /\
  (Schema schema target (Injectable C w).2).1 = (Schema schema target w).1.
Proof.
  unfold Injectable. rewrite !register_eq. unfold Schema, modify. simpl.
  destruct (providers w !! name C); simpl; auto.
Qed.

(** ** The singleton *)

Lemma getInstance_single p :
  Singleton.single p ->
  (Singleton.getInstance p).1 = 0 /\
  Singleton.instance (Singleton.getInstance p).2 = Some 0 /\
  length (Singleton.registries (Singleton.getInstance p).2) = 1 /\
  Singleton.view (Singleton.getInstance p).2 = Singleton.view p.
Proof.
  unfold Singleton.single, Singleton.getInstance, Singleton.view.
  destruct p as [[r|] rs objs d c]; simpl.
  - intros [-> Hlen]. auto.
  - intros ->. simpl. auto.
Qed.

Lemma method_single {A} (m : M A) p :
  Singleton.instance p = Some 0 -> length (Singleton.registries p) = 1 ->
  exists p',
    Singleton.method 0 m p = Some ((m (Singleton.view p)).1, p') /\
    Singleton.view p' = (m (Singleton.view p)).2 /\
    Singleton.instance p' = Some 0 /\
    length (Singleton.registries p') = 1.
Proof.
  destruct p as [inst rs objs d c]. simpl. intros -> Hlen.
  destruct rs as [|t [|t' rs]]; try discriminate.
  unfold Singleton.method, Singleton.this_world, Singleton.view. simpl.
  destruct (m (mkWorld t objs d c)) as [o [t1 h1 d1 c1]]. simpl.
  eexists. split; [reflexivity|]. simpl. auto.
Qed.

Lemma step_single c p :
  Singleton.single p -> exists p', Singleton.step c p = Some p' /\ Singleton.single p'.
Proof.
  intros Hs. destruct c as [|target|fuel impl|ds target|schema target]; simpl.
  - eexists. split; [reflexivity|].
    destruct (getInstance_single p Hs) as (_ & Hi & Hl & _).
    unfold Singleton.single. rewrite Hi. auto.
  - unfold Singleton.Injectable.
    destruct (getInstance_single p Hs) as (Hr & Hi & Hl & _).
    destruct (Singleton.getInstance p) as [r p1]. simpl in *. subst r.
    destruct (method_single (register target) p1 Hi Hl) as (p' & -> & _ & Hi' & Hl').
    eexists. split; [reflexivity|]. unfold Singleton.single. simpl. rewrite Hi'. auto.
  - unfold Singleton.resolve_instance.
    destruct (getInstance_single p Hs) as (Hr & Hi & Hl & _).
    destruct (Singleton.getInstance p) as [r p1]. simpl in *. subst r.
    destruct (method_single (resolve fuel impl) p1 Hi Hl) as (p' & -> & _ & Hi' & Hl').
    eexists. split; [reflexivity|]. unfold Singleton.single. simpl. rewrite Hi'. auto.
  - eexists. split; [reflexivity|]. exact Hs.
  - eexists. split; [reflexivity|]. exact Hs.
Qed.

Lemma run_single calls : forall p,
  Singleton.single p -> exists p', Singleton.run calls p = Some p' /\ Singleton.single p'.
Proof.
  induction calls as [|c calls IH]; intros p Hs; simpl.
  - eauto.
  - destruct (step_single c p Hs) as (p1 & -> & Hs1). by apply IH.
Qed.

(** X13: [Registry] is a singleton.  Whatever calls the program has made
    since start-up, every call was made on an existing registry, at most one
    [Registry] object exists, and [getInstance] returns the reference to
    that one object, having created it (empty) only if there was none; a
    further [getInstance] returns the same reference and changes
    nothing. *)
Theorem getInstance_singleton calls :
  exists p,
    Singleton.run calls Singleton.start = Some p /\
    length (Singleton.registries p) <= 1 /\
    (Singleton.getInstance p).1 = 0 /\
    length (Singleton.registries (Singleton.getInstance p).2) = 1 /\
    Singleton.view (Singleton.getInstance p).2 = Singleton.view p /\
    Singleton.getInstance (Singleton.getInstance p).2 = Singleton.getInstance p.
Proof.
  destruct (run_single calls Singleton.start eq_refl) as (p & Hrun & Hs).
  exists p. split; [exact Hrun|].
  destruct (getInstance_single p Hs) as (Hr & Hi & Hl & Hv).
  split.
  - unfold Singleton.single in Hs. destruct (Singleton.instance p).
    + lia.
    + rewrite Hs. simpl. lia.
  - split; [exact Hr|]. split; [exact Hl|]. split; [exact Hv|].
    unfold Singleton.getInstance at 1. rewrite Hi.
    destruct (Singleton.getInstance p) as [r p1]. simpl in *. by subst.
Qed.

(** X14: going through the singleton is working on one table.  In a
    process with at most one registry, [Injectable()(target)] and
    [Registry.getInstance().resolve(impl)] have the outcome, and leave the
    table, heap and metadata, that [register] and [resolve] give on the
    table of the one registry (the empty table when none exists yet);
    afterwards the registry exists and is still the only one. *)
Theorem singleton_is_one_table p target fuel impl :
  Singleton.single p ->
  (exists p',
     Singleton.Injectable target p = Some ((register target (Singleton.view p)).1, p') /\
     Singleton.view p' = (register target (Singleton.view p)).2 /\
     Singleton.single p' /\ Singleton.instance p' = Some 0) /\
  (exists p',
     Singleton.resolve_instance fuel impl p =
       Some ((resolve fuel impl (Singleton.view p)).1, p') /\
     Singleton.view p' = (resolve fuel impl (Singleton.view p)).2 /\
     Singleton.single p' /\ Singleton.instance p' = Some 0).
Proof.
  intros Hs.
  destruct (getInstance_single p Hs) as (Hr & Hi & Hl & Hv).
  unfold Singleton.Injectable, Singleton.resolve_instance.
  destruct (Singleton.getInstance p) as [r p1]. simpl in *. subst r.
  rewrite <- Hv. split.
  - destruct (method_single (register target) p1 Hi Hl) as (p' & E & Hv' & Hi' & Hl').
    exists p'. split; [exact E|]. split; [exact Hv'|].
    unfold Singleton.single. rewrite Hi'. auto.
  - destruct (method_single (resolve fuel impl) p1 Hi Hl) as (p' & E & Hv' & Hi' & Hl').
    exists p'. split; [exact E|]. split; [exact Hv'|].
    unfold Singleton.single. rewrite Hi'. auto.
Qed.

Lemma singleton_is_one_table_witness :
  (exists p',
     Singleton.Injectable cService Singleton.start =
       Some ((register cService (Singleton.view Singleton.start)).1, p') /\
     Singleton.view p' = (register cService (Singleton.view Singleton.start)).2 /\
     Singleton.single p' /\ Singleton.instance p' = Some 0) /\
  (exists p',
     Singleton.resolve_instance 1 cService Singleton.start =
       Some ((resolve 1 cService (Singleton.view Singleton.start)).1, p') /\
     Singleton.view p' = (resolve 1 cService (Singleton.view Singleton.start)).2 /\
     Singleton.single p' /\ Singleton.instance p' = Some 0).
Proof.
  apply (singleton_is_one_table Singleton.start cService 1 cService).
  reflexivity.
Defined.

(** ** The upload script *)

Lemma fold_left_append (fields : list (string * string)) : forall form,
  fold_left (fun form '(key, value) => Upload.append form key (Upload.TextValue value))
    fields form =
  form ++ map (fun kv => (kv.1, Upload.TextValue kv.2)) fields.
Proof.
  induction fields as [|[key value] fields IH]; intros form; simpl.
  - by rewrite app_nil_r.
  - rewrite IH. unfold Upload.append. by rewrite <- app_assoc.
Qed.

(** X15: the form [buildFormData] makes has one text part for each field,
    in the order of the fields, and then the file: the file is always the
    last part and no field is dropped or replaced, not even a field that is
    itself named [file]. *)
Theorem buildFormData_parts fields fileData filename fileType :
  Upload.buildFormData fields fileData filename fileType =
    map (fun kv => (kv.1, Upload.TextValue kv.2)) fields ++
    [("file", Upload.FileValue fileData fileType filename)] /\
  last (Upload.buildFormData fields fileData filename fileType) =
    Some ("file", Upload.FileValue fileData fileType filename) /\
  length (Upload.buildFormData fields fileData filename fileType) = S (length fields).
Proof.
  assert (E : Upload.buildFormData fields fileData filename fileType =
              map (fun kv => (kv.1, Upload.TextValue kv.2)) fields ++
              [("file", Upload.FileValue fileData fileType filename)]).
  { unfold Upload.buildFormData, Upload.append at 1. by rewrite fold_left_append. }
  split; [exact E|]. rewrite E. split.
  - apply last_snoc.
  - rewrite length_app, length_map. simpl. lia.
Qed.

(** X16: when the API answers the presign request with a response that
    is not [ok], [uploadMealImage] fails with
    [Failed to get presigned POST: <status> <statusText>], and the presign
    request is the only request sent: nothing is uploaded. *)
Theorem upload_stops_before_S3 env path data res :
  Upload.readFile env path = Return data ->
  Upload.fetch env (Upload.presign_request env "image/jpeg" (length data)) = Return res ->
  Upload.ok res = false ->
  Upload.uploadMealImage env path [] =
  (Throw (Error ("Failed to get presigned POST: " +:+ pretty (Upload.status res)
                   +:+ " " +:+ Upload.statusText res)),
   [Upload.presign_request env "image/jpeg" (length data)]).
Proof.
  intros Hread Hfetch Hok.
  unfold Upload.uploadMealImage, Upload.try_catch, Upload.io_bind,
    Upload.readImageFile, Upload.io_bind, Upload.await, Upload.io_ret,
    Upload.createMeal, Upload.io_bind, Upload.do_fetch.
  rewrite Hread. unfold Upload.presign_request in Hfetch.
  rewrite Hfetch, Hok. reflexivity.
Qed.

Lemma upload_stops_before_S3_witness :
  Upload.uploadMealImage
    (Upload.example_env Upload.response_forbidden Upload.response_ok)
    "/assets/cover.jpg" [] =
  (Throw (Error ("Failed to get presigned POST: " +:+ pretty 403
                   +:+ " " +:+ "Forbidden")),
   [Upload.presign_request
      (Upload.example_env Upload.response_forbidden Upload.response_ok)
      "image/jpeg" 3]).
Proof.
  apply (upload_stops_before_S3
           (Upload.example_env Upload.response_forbidden Upload.response_ok)
           "/assets/cover.jpg" [Byte.x01; Byte.x02; Byte.x03]
           Upload.response_forbidden);
    reflexivity.
Defined.

(** X19: when the file cannot be read, [uploadMealImage] fails with the
    error of the read, unchanged, without sending any request, and the
    script asks for exit status 1. *)
Theorem upload_unreadable_file env path e :
  Upload.readFile env path = Throw e ->
  Upload.uploadMealImage env path [] = (Throw e, []) /\
  Upload.main env path = (Some 1, []).
Proof.
  intros Hread.
  assert (E : Upload.uploadMealImage env path [] = (Throw e, [])).
  { unfold Upload.uploadMealImage, Upload.try_catch, Upload.io_bind,
      Upload.readImageFile, Upload.io_bind, Upload.await.
    rewrite Hread. reflexivity. }
  split; [exact E|]. unfold Upload.main. by rewrite E.
Qed.

Lemma upload_unreadable_file_witness :
  Upload.uploadMealImage
    (Upload.mkEnv (fun _ => Throw (Error "ENOENT"))
       (fun _ => Return Upload.response_ok)
       (fun _ => Return Upload.example_decoded) (fun p => p) "token")
    "/assets/cover.jpg" [] = (Throw (Error "ENOENT"), []) /\
  Upload.main
    (Upload.mkEnv (fun _ => Throw (Error "ENOENT"))
       (fun _ => Return Upload.response_ok)
       (fun _ => Return Upload.example_decoded) (fun p => p) "token")
    "/assets/cover.jpg" = (Some 1, []).
Proof.
  apply (upload_unreadable_file
           (Upload.mkEnv (fun _ => Throw (Error "ENOENT"))
              (fun _ => Return Upload.response_ok)
              (fun _ => Return Upload.example_decoded) (fun p => p) "token")
           "/assets/cover.jpg" (Error "ENOENT")).
  reflexivity.
Defined.

(** X17: when the file is read, the API answers [ok] with a signature
    that decodes, and the bucket answers [ok], [uploadMealImage] returns
    after exactly two requests, in this order: the presign request, which
    carries the type [image/jpeg] and the number of bytes of the file; and
    a [POST] to the decoded URL of the form built from the decoded fields
    and the bytes of the file under its base name. *)
Theorem upload_succeeds env path data res1 signature decoded res2 :
  Upload.readFile env path = Return data ->
  Upload.fetch env (Upload.presign_request env "image/jpeg" (length data)) = Return res1 ->
  Upload.ok res1 = true ->
  Upload.uploadSignature res1 = Return signature ->
  Upload.decode env signature = Return decoded ->
  Upload.fetch env
    (Upload.s3_request (Upload.decoded_url decoded)
       (Upload.buildFormData (Upload.fields decoded) data
          (Upload.basename env path) "image/jpeg")) = Return res2 ->
  Upload.ok res2 = true ->
  Upload.uploadMealImage env path [] =
  (Return tt,
   [Upload.presign_request env "image/jpeg" (length data);
    Upload.s3_request (Upload.decoded_url decoded)
      (Upload.buildFormData (Upload.fields decoded) data
         (Upload.basename env path) "image/jpeg")]).
Proof.
  intros Hread Hf1 Hok1 Hsig Hdec Hf2 Hok2.
  unfold Upload.uploadMealImage, Upload.try_catch, Upload.io_bind,
    Upload.readImageFile, Upload.io_bind, Upload.await, Upload.io_ret,
    Upload.createMeal, Upload.uploadToS3, Upload.io_bind, Upload.do_fetch,
    Upload.await, Upload.io_ret.
  rewrite Hread. unfold Upload.presign_request in Hf1.
  rewrite Hf1, Hok1. simpl. rewrite Hsig, Hdec.
  unfold Upload.s3_request in Hf2. rewrite Hf2, Hok2. reflexivity.
Qed.

Lemma upload_succeeds_witness :
  Upload.uploadMealImage (Upload.example_env Upload.response_ok Upload.response_ok)
    "/assets/cover.jpg" [] =
  (Return tt,
   [Upload.presign_request (Upload.example_env Upload.response_ok Upload.response_ok)
      "image/jpeg" 3;
    Upload.s3_request "https://bucket.example"
      (Upload.buildFormData [("key", "meals/1.jpg"); ("policy", "p")]
         [Byte.x01; Byte.x02; Byte.x03] "cover.jpg" "image/jpeg")]).
Proof.
  apply (upload_succeeds (Upload.example_env Upload.response_ok Upload.response_ok)
           "/assets/cover.jpg" [Byte.x01; Byte.x02; Byte.x03] Upload.response_ok
           "c2lnbmF0dXJl" Upload.example_decoded Upload.response_ok);
    reflexivity.
Defined.

(** X18: when the bucket answers the upload with a response that is not
    [ok], [uploadMealImage] fails with
    [S3 upload failed: <status> <statusText> — <text of the response>],
    after the two requests. *)
Theorem upload_refused_by_S3 env path data res1 signature decoded res2 body :
  Upload.readFile env path = Return data ->
  Upload.fetch env (Upload.presign_request env "image/jpeg" (length data)) = Return res1 ->
  Upload.ok res1 = true ->
  Upload.uploadSignature res1 = Return signature ->
  Upload.decode env signature = Return decoded ->
  Upload.fetch env
    (Upload.s3_request (Upload.decoded_url decoded)
       (Upload.buildFormData (Upload.fields decoded) data
          (Upload.basename env path) "image/jpeg")) = Return res2 ->
  Upload.ok res2 = false ->
  Upload.text res2 = Return body ->
  Upload.uploadMealImage env path [] =
  (Throw (Error ("S3 upload failed: " +:+ pretty (Upload.status res2) +:+ " "
                   +:+ Upload.statusText res2 +:+ " — " +:+ body)),
   [Upload.presign_request env "image/jpeg" (length data);
    Upload.s3_request (Upload.decoded_url decoded)
      (Upload.buildFormData (Upload.fields decoded) data
         (Upload.basename env path) "image/jpeg")]) /\
  (Upload.main env path).1 = Some 1.
Proof.
  intros Hread Hf1 Hok1 Hsig Hdec Hf2 Hok2 Htext.
  assert (E : Upload.uploadMealImage env path [] =
    (Throw (Error ("S3 upload failed: " +:+ pretty (Upload.status res2) +:+ " "
                     +:+ Upload.statusText res2 +:+ " — " +:+ body)),
     [Upload.presign_request env "image/jpeg" (length data);
      Upload.s3_request (Upload.decoded_url decoded)
        (Upload.buildFormData (Upload.fields decoded) data
           (Upload.basename env path) "image/jpeg")])).
  { unfold Upload.uploadMealImage, Upload.try_catch, Upload.io_bind,
      Upload.readImageFile, Upload.io_bind, Upload.await, Upload.io_ret,
      Upload.createMeal, Upload.uploadToS3, Upload.io_bind, Upload.do_fetch,
      Upload.await, Upload.io_ret.
    rewrite Hread. unfold Upload.presign_request in Hf1.
    rewrite Hf1, Hok1. simpl. rewrite Hsig, Hdec.
    unfold Upload.s3_request in Hf2. rewrite Hf2, Hok2. simpl.
    rewrite Htext. reflexivity. }
  split; [exact E|]. unfold Upload.main. by rewrite E.
Qed.

Lemma upload_refused_by_S3_witness :
  Upload.uploadMealImage
    (Upload.example_env Upload.response_ok Upload.response_forbidden)
    "/assets/cover.jpg" [] =
  (Throw (Error ("S3 upload failed: " +:+ pretty 403 +:+ " "
                   +:+ "Forbidden" +:+ " — " +:+ "denied")),
   [Upload.presign_request
      (Upload.example_env Upload.response_ok Upload.response_forbidden)
      "image/jpeg" 3;
    Upload.s3_request "https://bucket.example"
      (Upload.buildFormData [("key", "meals/1.jpg"); ("policy", "p")]
         [Byte.x01; Byte.x02; Byte.x03] "cover.jpg" "image/jpeg")]) /\
  (Upload.main (Upload.example_env Upload.response_ok Upload.response_forbidden)
     "/assets/cover.jpg").1 = Some 1.
Proof.
  apply (upload_refused_by_S3
           (Upload.example_env Upload.response_ok Upload.response_forbidden)
           "/assets/cover.jpg" [Byte.x01; Byte.x02; Byte.x03] Upload.response_ok
           "c2lnbmF0dXJl" Upload.example_decoded Upload.response_forbidden "denied");
    reflexivity.
Defined.

Example upload_refused_message :
  (Upload.uploadMealImage
     (Upload.example_env Upload.response_forbidden Upload.response_ok)
     "/assets/cover.jpg" []).1 =
  Throw (Error "Failed to get presigned POST: 403 Forbidden").
Proof. vm_compute. reflexivity. Qed.

(** ** The dependency list is fixed at registration *)

(** X20: [resolve] reads the dependency lists the table holds, not the
    metadata: defining ['design:paramtypes'] or a schema on any class after
    the registrations changes neither the outcome of [resolve] nor the
    objects it builds. *)
Theorem resolve_ignores_later_metadata n impl ds schema target w :
  (resolve n impl (design_paramtypes ds target w).2).1 = (resolve n impl w).1 /\
  heap (resolve n impl (design_paramtypes ds target w).2).2 =
    heap (resolve n impl w).2 /\
  (resolve n impl (Schema schema target w).2).1 = (resolve n impl w).1 /\
  heap (resolve n impl (Schema schema target w).2).2 = heap (resolve n impl w).2.
Proof.
  destruct (resolve_in_any_world n impl w) as [Ho Hh].
  destruct (resolve_in_any_world n impl (design_paramtypes ds target w).2) as [Ho1 Hh1].
  destruct (resolve_in_any_world n impl (Schema schema target w).2) as [Ho2 Hh2].
  simpl in *. rewrite Ho, Hh, Ho1, Hh1, Ho2, Hh2. auto.
Qed.
